(** * resolve-musl-runtime: a shallow embedding of [scripts/resolve-musl-runtime.py]

    The script scans an HTML page for the first anchor that mentions
    "runtime" and an architecture keyword and prints its URL, joined against
    a base URL.  It is written on top of four pieces of the Python standard
    library: [re] (three patterns), [html.unescape], [str.lower]/[str.strip]
    and [urllib.parse.urljoin].  The embedding follows the script line by
    line and models those library functions from their CPython 3.11 sources.

    Python strings are sequences of Unicode code points: [str] is [list N].
    Four tables of the interpreter are not reproduced and are taken as a
    parameter (record [pylib]): the named-entity table [html.entities.html5],
    the Unicode lower-casing of non-ASCII strings, NFKC normalisation and the
    bracketed-host check of [urllib.parse] (which calls [ipaddress]), next to
    the interpreter's limit on the digits [int] converts.  None of the tables
    is consulted on ASCII text without named entities and brackets. *)

From Stdlib Require Import String Ascii.
From Stdlib Require Import List NArith ZArith Bool Lia.
Import ListNotations.

(** ** Python strings *)

Definition str := list N.

(** [lit "abc"] is the Python literal ['abc'] (ASCII text). *)
Definition lit (s : string) : str := map N_of_ascii (list_ascii_of_string s).

(** The double quote character, written apart from the literals. *)
Definition dq : str := [34%N].

Fixpoint str_eqb (a b : str) : bool :=
  match a, b with
  | [], [] => true
  | x :: a', y :: b' => N.eqb x y && str_eqb a' b'
  | _, _ => false
  end.

(** [c in chars] for a character. *)
Definition char_in (chars : str) (c : N) : bool := existsb (N.eqb c) chars.

(** [x in xs] for a list of strings. *)
Definition str_in (xs : list str) (x : str) : bool := existsb (str_eqb x) xs.

Fixpoint startswith (p s : str) : bool :=
  match p, s with
  | [], _ => true
  | x :: p', y :: s' => N.eqb x y && startswith p' s'
  | _ :: _, [] => false
  end.

(** [sub in s]: the substring test of Python's [in] on strings. *)
Fixpoint contains (sub s : str) : bool :=
  startswith sub s ||
  match s with
  | [] => false
  | _ :: s' => contains sub s'
  end.

Fixpoint dropwhile (p : N -> bool) (s : str) : str :=
  match s with
  | c :: s' => if p c then dropwhile p s' else s
  | [] => []
  end.

(** [s.lstrip(chars)], [s.rstrip(chars)] and [s.strip(chars)] with the set of
    characters given as a predicate. *)
Definition lstrip (p : N -> bool) (s : str) : str := dropwhile p s.
Fixpoint rstrip (p : N -> bool) (s : str) : str :=
  match s with
  | [] => []
  | c :: s' =>
      match rstrip p s' with
      | [] => if p c then [] else [c]
      | t => c :: t
      end
  end.
Definition strip_chars (p : N -> bool) (s : str) : str := rstrip p (lstrip p s).

(** [str.isspace] on one character, which is also what [\s] matches in a
    [str] pattern: the white-space code points of the Unicode database. *)
Definition is_space (c : N) : bool :=
  ((9 <=? c) && (c <=? 13) || (28 <=? c) && (c <=? 32)
   || (c =? 133) || (c =? 160) || (c =? 5760)
   || (8192 <=? c) && (c <=? 8202)
   || (c =? 8232) || (c =? 8233) || (c =? 8239) || (c =? 8287)
   || (c =? 12288))%N.

(** [s.strip()] *)
Definition strip (s : str) : str := strip_chars is_space s.

Definition is_ascii (c : N) : bool := (c <? 128)%N.
Definition isascii (s : str) : bool := forallb is_ascii s.

Definition is_upper_ascii (c : N) : bool := ((65 <=? c) && (c <=? 90))%N.
Definition is_lower_ascii (c : N) : bool := ((97 <=? c) && (c <=? 122))%N.
Definition is_digit (c : N) : bool := ((48 <=? c) && (c <=? 57))%N.

Definition ascii_tolower (c : N) : N :=
  if is_upper_ascii c then (c + 32)%N else c.

(** ** Exceptions

    The two exceptions that can leave the script's functions: [SystemExit]
    raised by [sys.exit], and the [ValueError] of [int] and [urllib.parse]. *)

Inductive exn : Type :=
| SystemExit (code : Z)
| ValueError.

Inductive result (A : Type) : Type :=
| Return (a : A)
| Raise (e : exn).
Arguments Return {A} a.
Arguments Raise {A} e.

Definition bind {A B} (m : result A) (f : A -> result B) : result B :=
  match m with
  | Return a => f a
  | Raise e => Raise e
  end.

Notation "x <- m ;; k" := (bind m (fun x => k))
  (at level 61, m at next level, right associativity).

(** ** The interpreter's tables, taken as a parameter *)

Record pylib := {
  (** [html.entities.html5]: names (without the ampersand, some with the
      closing semicolon) to their replacement text. *)
  html5 : str -> option str;
  (** [str.lower] on a string that is not pure ASCII ([case_operation] with
      [do_lower] in [unicodeobject.c]). *)
  unicode_lower : str -> str;
  (** [unicodedata.normalize('NFKC', _)]. *)
  nfkc : str -> str;
  (** [urllib.parse._check_bracketed_host] returns without raising. *)
  bracketed_host_ok : str -> bool;
  (** [sys.get_int_max_str_digits()]: 4300 by default, 0 for no limit. *)
  int_max_str_digits : nat
}.

(** [s.lower()]: [unicode_lower_impl] takes the ASCII path when the string is
    ASCII and the Unicode tables otherwise. *)
Definition lower (L : pylib) (s : str) : str :=
  if isascii s then map ascii_tolower s else unicode_lower L s.

(** ** Regular expressions: the fragment of [re] the script and [html] use

    A backtracking matcher with the priorities of [re]: alternatives are
    tried left to right, a greedy repetition tries the longest run first and
    gives characters back, a lazy one tries the shortest first; the first
    complete match found in that order is the match. Repetition is over one
    character class, which is all the patterns below need. *)

Module Re.

Inductive regex : Type :=
| Eps
| Cls (p : N -> bool)
| Rep (greedy : bool) (lo : nat) (hi : option nat) (p : N -> bool)
| Seq (r1 r2 : regex)
| Alt (r1 r2 : regex)
| Grp (r : regex).

Definition exhausted (hi : option nat) : bool :=
  match hi with Some O => true | _ => false end.

(** [p{lo,hi}] (greedy) or [p{lo,hi}?] (lazy) in front of the continuation [k]. *)
Fixpoint rep {A} (greedy : bool) (p : N -> bool) (lo : nat) (hi : option nat)
    (s : str) (k : str -> option A) : option A :=
  if greedy then
    match (match s with
           | c :: s' =>
               if p c && negb (exhausted hi)
               then rep greedy p (pred lo) (option_map pred hi) s' k
               else None
           | [] => None
           end) with
    | Some x => Some x
    | None => match lo with O => k s | S _ => None end
    end
  else
    match (match lo with O => k s | S _ => None end) with
    | Some x => Some x
    | None =>
        match s with
        | c :: s' =>
            if p c && negb (exhausted hi)
            then rep greedy p (pred lo) (option_map pred hi) s' k
            else None
        | [] => None
        end
    end.

(** [exec r s caps k]: match [r] at the start of [s], then run [k] on the
    rest of the input and the groups captured so far; on failure of [k] the
    next way of matching [r] is tried. *)
Fixpoint exec {A} (r : regex) (s : str) (caps : list str)
    (k : str -> list str -> option A) : option A :=
  match r with
  | Eps => k s caps
  | Cls p =>
      match s with
      | c :: s' => if p c then k s' caps else None
      | [] => None
      end
  | Rep g lo hi p => rep g p lo hi s (fun s' => k s' caps)
  | Seq r1 r2 => exec r1 s caps (fun s' caps' => exec r2 s' caps' k)
  | Alt r1 r2 =>
      match exec r1 s caps k with
      | Some x => Some x
      | None => exec r2 s caps k
      end
  | Grp r1 =>
      exec r1 s caps
        (fun s' caps' => k s' (caps' ++ [firstn (length s - length s') s]))
  end.

(** A match anchored at the start of [s]: its groups and the unread rest. *)
Definition match_at (r : regex) (s : str) : option (list str * str) :=
  exec r s [] (fun s' caps => Some (caps, s')).

(** The left-to-right scan shared by [re.findall] and [re.sub]: the input
    cut into non-overlapping matches ([Hit]) and the characters between them
    ([Gap]). [skip] counts the characters of the current match still to pass.
    Every pattern below consumes at least one character (lemmas
    [*_consumes]), so the special treatment [re] gives to empty matches does
    not arise and is not modelled. *)
Inductive piece : Type :=
| Gap (c : N)
| Hit (whole : str) (groups : list str).

Fixpoint scan (r : regex) (s : str) (skip : nat) : list piece :=
  match s with
  | [] => []
  | c :: s' =>
      match skip with
      | S n => scan r s' n
      | O =>
          match match_at r s with
          | Some (caps, rest) =>
              let n := length s - length rest in
              Hit (firstn n s) caps :: scan r s' (n - 1)
          | None => Gap c :: scan r s' 0
          end
      end
  end.

(** [re.sub(r, repl, s)] with [repl] a string without back-references. *)
Definition sub (r : regex) (repl : str) (s : str) : str :=
  flat_map (fun p => match p with Gap c => [c] | Hit _ _ => repl end)
           (scan r s 0).

(** [re.sub(r, repl, s)] with [repl] a callable, which may raise: the
    replacements are computed from left to right. *)
Fixpoint replace_pieces (repl : list str -> result str) (ps : list piece)
    : result str :=
  match ps with
  | [] => Return []
  | Gap c :: ps' => out <- replace_pieces repl ps' ;; Return (c :: out)
  | Hit _ caps :: ps' =>
      v <- repl caps ;;
      out <- replace_pieces repl ps' ;;
      Return (v ++ out)
  end.

Definition sub_with (r : regex) (repl : list str -> result str) (s : str)
    : result str :=
  replace_pieces repl (scan r s 0).

(** [re.findall(r, s)] for a pattern with two groups: the pairs of groups. *)
Definition findall2 (r : regex) (s : str) : list (str * str) :=
  flat_map (fun p => match p with
                     | Hit _ [g1; g2] => [(g1, g2)]
                     | _ => []
                     end)
           (scan r s 0).

(** Pattern notation helpers. *)
Definition chr (c : N) : regex := Cls (N.eqb c).
(** A letter under [re.IGNORECASE]: for the ASCII letters of the patterns
    below the only case variants are the two ASCII ones. *)
Definition chr_i (c : N) : regex := Cls (fun x => N.eqb (ascii_tolower x) c).
Definition star (p : N -> bool) : regex := Rep true 0 None p.
Definition plus (p : N -> bool) : regex := Rep true 1 None p.
Definition star_lazy (p : N -> bool) : regex := Rep false 0 None p.
Definition opt (p : N -> bool) : regex := Rep true 0 (Some 1) p.
Fixpoint cat (rs : list regex) : regex :=
  match rs with
  | [] => Eps
  | r :: rs' => Seq r (cat rs')
  end.
Definition text_i (s : str) : regex := cat (map chr_i s).
Definition any (_ : N) : bool := true.
Definition other_than (chars : str) (c : N) : bool := negb (char_in chars c).

End Re.

(** ** [html.unescape] *)

Module Html.
Import Re.

Definition invalid_charrefs (num : N) : option str :=
  match num with
  | 0x00 => Some [0xfffd] | 0x0d => Some [0x0d] | 0x80 => Some [0x20ac]
  | 0x81 => Some [0x81]   | 0x82 => Some [0x201a] | 0x83 => Some [0x0192]
  | 0x84 => Some [0x201e] | 0x85 => Some [0x2026] | 0x86 => Some [0x2020]
  | 0x87 => Some [0x2021] | 0x88 => Some [0x02c6] | 0x89 => Some [0x2030]
  | 0x8a => Some [0x0160] | 0x8b => Some [0x2039] | 0x8c => Some [0x0152]
  | 0x8d => Some [0x8d]   | 0x8e => Some [0x017d] | 0x8f => Some [0x8f]
  | 0x90 => Some [0x90]   | 0x91 => Some [0x2018] | 0x92 => Some [0x2019]
  | 0x93 => Some [0x201c] | 0x94 => Some [0x201d] | 0x95 => Some [0x2022]
  | 0x96 => Some [0x2013] | 0x97 => Some [0x2014] | 0x98 => Some [0x02dc]
  | 0x99 => Some [0x2122] | 0x9a => Some [0x0161] | 0x9b => Some [0x203a]
  | 0x9c => Some [0x0153] | 0x9d => Some [0x9d]   | 0x9e => Some [0x017e]
  | 0x9f => Some [0x0178]
  | _ => None
  end%N.

Definition invalid_codepoints (num : N) : bool :=
  ((0x1 <=? num) && (num <=? 0x8)
   || (0xe <=? num) && (num <=? 0x1f)
   || (0x7f <=? num) && (num <=? 0x9f)
   || (0xfdd0 <=? num) && (num <=? 0xfdef)
   || (num =? 0xb)
   || (1 <=? num / 0x10000) && (num / 0x10000 <=? 0x10)
      && (0xfffe <=? num mod 0x10000)
   || (num =? 0xfffe) || (num =? 0xffff))%N.

Definition is_hex (c : N) : bool :=
  (is_digit c || (97 <=? c) && (c <=? 102) || (65 <=? c) && (c <=? 70))%N.

Definition hex_value (c : N) : N :=
  (if is_digit c then c - 48
   else if (97 <=? c) && (c <=? 102) then c - 87
   else c - 55)%N.

(** [int(digits)] and [int(digits, 16)] on digits the pattern has checked.
    In base 10 the interpreter refuses more digits than its limit (a limit
    is 0 or above 640; leading zeros count); a power-of-two base has no limit. *)
Definition too_many_digits (L : pylib) (s : str) : bool :=
  (640 <? length s) && (0 <? int_max_str_digits L)
  && (int_max_str_digits L <? length s).

Definition int10 (L : pylib) (s : str) : result N :=
  if too_many_digits L s then Raise ValueError
  else Return (fold_left (fun n c => n * 10 + (c - 48))%N s 0%N).

Definition int16 (s : str) : N :=
  fold_left (fun n c => n * 16 + hex_value c)%N s 0%N.

Definition semicolon : N := 59%N.
Definition is_semicolon (c : N) : bool := N.eqb c semicolon.

(** The [for x in range(len(s)-1, 1, -1)] loop of [_replace_charref]: the
    longest proper prefix of [s], of length at least 2, that is in the table. *)
Fixpoint longest_prefix (L : pylib) (s : str) (x : nat) : option str :=
  match x with
  | S (S _ as x') =>
      match html5 L (firstn x s) with
      | Some v => Some (v ++ skipn x s)
      | None => longest_prefix L s x'
      end
  | _ => None
  end.

(** [_replace_charref] applied to [group(1)] of a match of [_charref]. *)
Definition replace_charref (L : pylib) (s : str) : result str :=
  match s with
  | 35%N :: s1 =>
      num <- match s1 with
             | c :: s2 =>
                 if char_in (lit "xX") c
                 then Return (int16 (rstrip is_semicolon s2))
                 else int10 L (rstrip is_semicolon s1)
             | [] => Return 0%N
             end ;;
      match invalid_charrefs num with
      | Some v => Return v
      | None =>
          if ((0xD800 <=? num) && (num <=? 0xDFFF) || (0x10FFFF <? num))%N
          then Return [0xFFFD%N]
          else if invalid_codepoints num then Return []
          else Return [num]
      end
  | _ =>
      match html5 L s with
      | Some v => Return v
      | None =>
          match longest_prefix L s (length s - 1) with
          | Some v => Return v
          | None => Return (38%N :: s)
          end
      end
  end.

(** [_charref]:
    [&(#[0-9]+;?|#[xX][0-9a-fA-F]+;?|[^\t\n\f <&#;]{1,32};?)] *)
Definition charref : regex :=
  Seq (chr 38)
      (Grp (Alt (cat [chr 35; plus is_digit; opt is_semicolon])
           (Alt (cat [chr 35; Cls (char_in (lit "xX")); plus is_hex;
                      opt is_semicolon])
                (cat [Rep true 1 (Some 32)
                        (other_than ([9; 10; 12]%N ++ lit " <&#;"));
                      opt is_semicolon])))).

Definition unescape (L : pylib) (s : str) : result str :=
  if negb (char_in s 38%N) then Return s
  else sub_with charref
         (fun caps => match caps with
                      | g1 :: _ => replace_charref L g1
                      | [] => Return []
                      end) s.

End Html.

(** ** [urllib.parse.urljoin] *)

Module UrlParse.

Definition uses_relative : list str :=
  map lit [""; "ftp"; "http"; "gopher"; "nntp"; "imap"; "wais"; "file";
           "https"; "shttp"; "mms"; "prospero"; "rtsp"; "rtspu"; "sftp";
           "svn"; "svn+ssh"; "ws"; "wss"]%string.

Definition uses_netloc : list str :=
  map lit [""; "ftp"; "http"; "gopher"; "nntp"; "telnet"; "imap"; "wais";
           "file"; "mms"; "https"; "shttp"; "snews"; "prospero"; "rtsp";
           "rtspu"; "rsync"; "svn"; "svn+ssh"; "sftp"; "nfs"; "git";
           "git+ssh"; "ws"; "wss"]%string.

Definition uses_params : list str :=
  map lit [""; "ftp"; "hdl"; "prospero"; "http"; "imap"; "https"; "shttp";
           "rtsp"; "rtspu"; "sip"; "sips"; "mms"; "sftp"; "tel"]%string.

(** [c in scheme_chars] *)
Definition scheme_char (c : N) : bool :=
  is_lower_ascii c || is_upper_ascii c || is_digit c || char_in (lit "+-.") c.

(** [_WHATWG_C0_CONTROL_OR_SPACE] and [_UNSAFE_URL_BYTES_TO_REMOVE] *)
Definition c0_control_or_space (c : N) : bool := (c <=? 32)%N.
Definition unsafe_url_byte (c : N) : bool := char_in [9; 13; 10]%N c.

Definition remove_chars (p : N -> bool) (s : str) : str :=
  filter (fun c => negb (p c)) s.

(** [s.find(c)] *)
Fixpoint find (c : N) (s : str) : option nat :=
  match s with
  | [] => None
  | x :: s' => if N.eqb x c then Some O else option_map S (find c s')
  end.

(** [s.partition(c)]: the text before the first [c], whether [c] was found,
    and the text after it. *)
Definition partition (c : N) (s : str) : str * bool * str :=
  match find c s with
  | Some i => (firstn i s, true, skipn (S i) s)
  | None => (s, false, [])
  end.

(** [s.rpartition(c)[2]]: the text after the last [c], all of [s] without. *)
Definition after_last (c : N) (s : str) : str :=
  match find c (rev s) with
  | Some i => skipn (length s - i) s
  | None => s
  end.

(** [s.split(c)] *)
Fixpoint split (c : N) (s : str) : list str :=
  match s with
  | [] => [[]]
  | x :: s' =>
      if N.eqb x c then [] :: split c s'
      else match split c s' with
           | h :: t => (x :: h) :: t
           | [] => [[x]]
           end
  end.

(** [sep.join(parts)] *)
Fixpoint join (sep : str) (parts : list str) : str :=
  match parts with
  | [] => []
  | [p] => p
  | p :: ps => p ++ sep ++ join sep ps
  end.

Definition nonempty (s : str) : bool :=
  match s with [] => false | _ :: _ => true end.

Record SplitResult := {
  s_scheme : str; s_netloc : str; s_path : str; s_query : str;
  s_fragment : str
}.

Record ParseResult := {
  scheme : str; netloc : str; path : str; params : str; query : str;
  fragment : str
}.

Definition slash : N := 47%N.

(** [_splitnetloc(url, 2)]: the authority runs to the first of [/?#]. *)
Definition splitnetloc (url : str) : str * str :=
  let rest := skipn 2 url in
  let delim := Re.other_than (lit "/?#") in
  (firstn (length rest - length (dropwhile delim rest)) rest,
   dropwhile delim rest).

(** [_check_bracketed_netloc] returns without raising. *)
Definition check_bracketed_netloc (L : pylib) (netloc : str) : bool :=
  let hostname_and_port := after_last 64%N netloc in
  let '(before_bracket, have_open_br, bracketed) :=
    partition 91%N hostname_and_port in
  if have_open_br then
    if nonempty before_bracket then false
    else
      let '(hostname, _, port) := partition 93%N bracketed in
      if nonempty port && negb (startswith (lit ":") port) then false
      else bracketed_host_ok L hostname
  else
    let '(hostname, _, _) := partition 58%N hostname_and_port in
    bracketed_host_ok L hostname.

(** [_checknetloc] returns without raising. *)
Definition checknetloc (L : pylib) (netloc : str) : bool :=
  if negb (nonempty netloc) || isascii netloc then true
  else
    let n := remove_chars (char_in (lit "@:#?")) netloc in
    let netloc2 := nfkc L n in
    if str_eqb n netloc2 then true
    else negb (existsb (char_in (lit "/?#@:")) netloc2).

Definition is_ascii_alpha (c : N) : bool :=
  is_lower_ascii c || is_upper_ascii c.

Definition urlsplit (L : pylib) (url scheme : str) : result SplitResult :=
  let url := lstrip c0_control_or_space url in
  let scheme := strip_chars c0_control_or_space scheme in
  let url := remove_chars unsafe_url_byte url in
  let scheme := remove_chars unsafe_url_byte scheme in
  let '(scheme, url) :=
    match find 58%N url, url with
    | Some (S _ as i), c0 :: _ =>
        if is_ascii_alpha c0 && forallb scheme_char (firstn i url)
        then (lower L (firstn i url), skipn (S i) url)
        else (scheme, url)
    | _, _ => (scheme, url)
    end in
  let '(netloc, url) :=
    if str_eqb (firstn 2 url) (lit "//") then splitnetloc url
    else ([], url) in
  let lbr := char_in netloc 91%N in
  let rbr := char_in netloc 93%N in
  if lbr && negb rbr || rbr && negb lbr then Raise ValueError
  else if lbr && rbr && negb (check_bracketed_netloc L netloc)
  then Raise ValueError
  else
    let '(url, fragment) :=
      match partition 35%N url with
      | (u, true, f) => (u, f)
      | _ => (url, [])
      end in
    let '(url, query) :=
      match partition 63%N url with
      | (u, true, q) => (u, q)
      | _ => (url, [])
      end in
    if negb (checknetloc L netloc) then Raise ValueError
    else Return {| s_scheme := scheme; s_netloc := netloc; s_path := url;
                   s_query := query; s_fragment := fragment |}.

(** [_splitparams] *)
Definition splitparams (url : str) : str * str :=
  if char_in url slash then
    let r := length url - S (match find slash (rev url) with
                             | Some k => k
                             | None => O
                             end) in
    match find 59%N (skipn r url) with
    | Some j => (firstn (r + j) url, skipn (S (r + j)) url)
    | None => (url, [])
    end
  else
    match find 59%N url with
    | Some i => (firstn i url, skipn (S i) url)
    | None => (removelast url, url)
    end.

Definition urlparse (L : pylib) (url scheme : str) : result ParseResult :=
  splitresult <- urlsplit L url scheme ;;
  let scheme := s_scheme splitresult in
  let url := s_path splitresult in
  let '(url, params) :=
    if str_in uses_params scheme && char_in url 59%N then splitparams url
    else (url, []) in
  Return {| scheme := scheme; netloc := s_netloc splitresult; path := url;
            params := params; query := s_query splitresult;
            fragment := s_fragment splitresult |}.

Definition urlunsplit (scheme netloc url query fragment : str) : str :=
  let url :=
    if nonempty netloc
       || nonempty scheme && str_in uses_netloc scheme
          && negb (str_eqb (firstn 2 url) (lit "//"))
    then
      let url := if nonempty url && negb (str_eqb (firstn 1 url) (lit "/"))
                 then lit "/" ++ url else url in
      lit "//" ++ netloc ++ url
    else url in
  let url := if nonempty scheme then scheme ++ lit ":" ++ url else url in
  let url := if nonempty query then url ++ lit "?" ++ query else url in
  let url := if nonempty fragment then url ++ lit "#" ++ fragment else url in
  url.

Definition urlunparse (scheme netloc url params query fragment : str) : str :=
  let url := if nonempty params then url ++ lit ";" ++ params else url in
  urlunsplit scheme netloc url query fragment.

(** [segments[1:-1] = filter(None, segments[1:-1])]: the empty segments
    strictly between the first and the last one are dropped. *)
Definition drop_inner_empty (segments : list str) : list str :=
  match segments with
  | first :: (_ :: _) as rest =>
      first :: filter nonempty (removelast rest) ++ [last rest []]
  | _ => segments
  end.

(** The loop over [segments] that builds [resolved_path]. *)
Fixpoint resolve_segments (segments resolved_path : list str) : list str :=
  match segments with
  | [] => resolved_path
  | seg :: rest =>
      if str_eqb seg (lit "..")
      then resolve_segments rest (removelast resolved_path)
      else if str_eqb seg (lit ".") then resolve_segments rest resolved_path
      else resolve_segments rest (resolved_path ++ [seg])
  end.

Definition urljoin (L : pylib) (base url : str) : result str :=
  if negb (nonempty base) then Return url
  else if negb (nonempty url) then Return base
  else
    b <- urlparse L base [] ;;
    u <- urlparse L url (scheme b) ;;
    if negb (str_eqb (scheme u) (scheme b))
       || negb (str_in uses_relative (scheme u))
    then Return url
    else if str_in uses_netloc (scheme u) && nonempty (netloc u)
    then Return (urlunparse (scheme u) (netloc u) (path u) (params u)
                            (query u) (fragment u))
    else
      let netloc := if str_in uses_netloc (scheme u) then netloc b
                    else netloc u in
      if negb (nonempty (path u)) && negb (nonempty (params u))
      then
        let query := if negb (nonempty (query u)) then query b
                     else query u in
        Return (urlunparse (scheme u) netloc (path b) (params b) query
                           (fragment u))
      else
        let base_parts := split slash (path b) in
        let base_parts :=
          if nonempty (last base_parts []) then removelast base_parts
          else base_parts in
        let segments :=
          if str_eqb (firstn 1 (path u)) (lit "/") then split slash (path u)
          else drop_inner_empty (base_parts ++ split slash (path u)) in
        let resolved_path := resolve_segments segments [] in
        let resolved_path :=
          if str_in [lit "."; lit ".."] (last segments [])
          then resolved_path ++ [[]] else resolved_path in
        let joined := join (lit "/") resolved_path in
        Return (urlunparse (scheme u) netloc
                  (if nonempty joined then joined else lit "/")
                  (params u) (query u) (fragment u)).

End UrlParse.

(** ** The script *)

Import Re.

(** [<[^>]+>] *)
Definition tag_re : regex :=
  cat [chr 60; plus (other_than (lit ">")); chr 62].

(** [\s+] *)
Definition ws_re : regex := plus is_space.

(** [<a\s+[^>]*href=Q([^Q]+)Q[^>]*>(.*?)</a>], with Q standing for the
    double quote, under [re.IGNORECASE] (every literal is matched through
    [chr_i]) and [re.DOTALL] (the dot is [any]) *)
Definition anchor_re : regex :=
  cat [text_i (lit "<a"); plus is_space; star (other_than (lit ">"));
       text_i (lit "href=" ++ dq); Grp (plus (other_than dq)); text_i dq;
       star (other_than (lit ">")); text_i (lit ">");
       Grp (star_lazy any); text_i (lit "</a>")].

Definition normalize_text (L : pylib) (text : str) : result str :=
  let text := sub tag_re (lit " ") text in
  text <- Html.unescape L text ;;
  Return (lower L (strip (sub ws_re (lit " ") text))).

(** The haystack of one anchor and the test of the [if] in the loop. *)
Definition haystack (L : pylib) (href_unescaped text : str) : str :=
  lower L (href_unescaped ++ lit " " ++ text).

Definition matches (needle hay : str) : bool :=
  contains (lit "runtime") hay && contains needle hay.

(** Whether one extracted anchor passes the test: its haystack contains both
    keywords. *)
Definition qualifies (L : pylib) (needle : str) (a : str * str) : result bool :=
  href_unescaped <- Html.unescape L (fst a) ;;
  text <- normalize_text L (snd a) ;;
  Return (matches needle (haystack L href_unescaped text)).

(** The [for href, inner in anchors] loop with the [sys.exit(1)] after it. *)
Fixpoint search_anchors (L : pylib) (home_url needle : str)
    (anchors : list (str * str)) : result str :=
  match anchors with
  | [] => Raise (SystemExit 1)
  | (href, inner) :: rest =>
      href_unescaped <- Html.unescape L href ;;
      text <- normalize_text L inner ;;
      if matches needle (haystack L href_unescaped text)
      then UrlParse.urljoin L home_url href_unescaped
      else search_anchors L home_url needle rest
  end.

Definition resolve_musl_runtime_url (L : pylib) (html home_url needle_arch : str)
    : result str :=
  let needle := lower L needle_arch in
  let anchors := findall2 anchor_re html in
  search_anchors L home_url needle anchors.

(** ** The driver *)

(** The parsed command line ([args]), [os.environ] and standard input. *)
Record Namespace := {
  args_html : option str;
  args_home_url : option str;
  args_needle_arch : option str
}.

(** What becomes of [print(url)] at line 106. It depends on the stream
    behind standard output (its encoding, whether it can be written to):
    the line is written; or [print] raises an exception (a
    [UnicodeEncodeError], an [OSError]), inside the [try]; or [print] leaves
    the line in the buffer of the stream and the line is lost when the
    interpreter flushes the stream on exit, which makes the exit status
    120. *)
Inductive print_result := Written | PrintRaises | LostOnExit.

(** The surroundings of a run once the command line is parsed: the parsed
    flags, the environment, standard input (taken to be readable) and the
    behaviour of standard output; standard error is taken to accept what is
    written to it. *)
Record process := {
  args : Namespace;
  environ : list (string * str);
  stdin_isatty : bool;
  stdin_read : str;
  stdout_print : str -> print_result
}.

(** What a run leaves behind: the lines printed and the exit status. *)
Record run := {
  stdout : list str;
  stderr : list str;
  status : Z
}.

(** [os.environ.get(name)] *)
Fixpoint environ_get (env : list (string * str)) (name : string) : option str :=
  match env with
  | [] => None
  | (k, v) :: env' => if String.eqb k name then Some v else environ_get env' name
  end.

(** Truth value of an optional string: [None] and [''] are false. *)
Definition truthy (o : option str) : bool :=
  match o with
  | Some (_ :: _) => true
  | _ => false
  end.

(** [a or b] *)
Definition or_else (a b : option str) : option str :=
  if truthy a then a else b.

(** [parser.error(message)]: usage and message on standard error, status 2. *)
Definition parser_error (message : string) : run :=
  {| stdout := []; stderr := [lit message]; status := 2 |}.

(** The three inputs after the fallbacks of lines 84 to 101: flag, then
    environment variable, then (HTML only) standard input when it is not a
    terminal. *)
Definition html_source (p : process) : option str :=
  if truthy (args_html (args p)) then args_html (args p)
  else match environ_get (environ p) "HTML" with
       | Some v => Some v
       | None => if negb (stdin_isatty p) then Some (stdin_read p) else None
       end.

Definition home_url_source (p : process) : option str :=
  or_else (args_home_url (args p)) (environ_get (environ p) "HOME_URL").

Definition needle_arch_source (p : process) : option str :=
  or_else (args_needle_arch (args p)) (environ_get (environ p) "NEEDLE_ARCH").

Definition value (o : option str) : str :=
  match o with Some v => v | None => [] end.

Section Driver.

(** The function called at line 105. *)
Variable resolver : str -> str -> str -> result str.

(** Lines 84 to 112. [print(url)] is one line on standard output when it
    succeeds; when it raises, the exception is caught at line 110 like one
    of the resolver. The text of the exception that follows the prefix of a
    diagnostic is left out. *)

Definition main_with (p : process) : run :=
  match html_source p with
  | None =>
      parser_error
        "HTML content must be provided via --html, HTML environment variable, or stdin"
  | Some html =>
      let home_url := home_url_source p in
      if negb (truthy home_url) then
        parser_error
          "HOME_URL must be provided via --home-url or HOME_URL environment variable"
      else
        let needle_arch := needle_arch_source p in
        if negb (truthy needle_arch) then
          parser_error
            "NEEDLE_ARCH must be provided via --needle-arch or NEEDLE_ARCH environment variable"
        else
          match resolver html (value home_url) (value needle_arch) with
          | Return url =>
              match stdout_print p url with
              | Written => {| stdout := [url]; stderr := []; status := 0 |}
              | PrintRaises =>
                  {| stdout := [];
                     stderr := [lit "Error resolving musl runtime URL: "];
                     status := 1 |}
              | LostOnExit =>
                  {| stdout := []; stderr := [lit "Exception ignored in: "];
                     status := 120 |}
              end
          | Raise (SystemExit code) =>
              {| stdout := []; stderr := []; status := code |}
          | Raise ValueError =>
              {| stdout := [];
                 stderr := [lit "Error resolving musl runtime URL: "];
                 status := 1 |}
          end
  end.

End Driver.

Definition main (L : pylib) (p : process) : run :=
  main_with (resolve_musl_runtime_url L) p.

(** ** An instance of the interpreter's tables for ASCII text

    The entries of [html5] for the five characters [html.escape] produces
    and the no-break space, no change of case outside ASCII, no NFKC
    rewriting, every bracketed host refused, the default digit limit. It
    serves where a closed example is computed; the examples are ASCII text
    that names no other entity and has no bracketed host, so that no other
    entry of the tables is consulted on them. *)

Definition core_entities (name : str) : option str :=
  if str_in (map lit ["amp;"; "amp"; "AMP;"; "AMP"]%string) name then Some (lit "&")
  else if str_in (map lit ["lt;"; "lt"; "LT;"; "LT"]%string) name then Some (lit "<")
  else if str_in (map lit ["gt;"; "gt"; "GT;"; "GT"]%string) name then Some (lit ">")
  else if str_in (map lit ["quot;"; "quot"; "QUOT;"; "QUOT"]%string) name then Some dq
  else if str_eqb name (lit "apos;") then Some (lit "'")
  else if str_in (map lit ["nbsp;"; "nbsp"]%string) name then Some [160%N]
  else None.

Definition ascii_lib : pylib := {|
  html5 := core_entities;
  unicode_lower := fun s => s;
  nfkc := fun s => s;
  bracketed_host_ok := fun _ => false;
  int_max_str_digits := 4300
|}.

(** The same instance with the ASCII letters of a non-ASCII text put in
    lower case and its other characters left as they are. *)
Definition ascii_case_lib : pylib := {|
  html5 := core_entities;
  unicode_lower := map ascii_tolower;
  nfkc := fun s => s;
  bracketed_host_ok := fun _ => false;
  int_max_str_digits := 4300
|}.

(** ** The strings a pattern matches

    [derives r w c c'] holds when the pattern [r] can match exactly the text
    [w], turning the groups captured so far from [c] into [c']. It says which
    texts are possible matches; [exec] chooses among them by priority. *)

Inductive derives : regex -> str -> list str -> list str -> Prop :=
| D_eps c : derives Eps [] c c
| D_cls p x c : p x = true -> derives (Cls p) [x] c c
| D_rep g lo hi p w c :
    forallb p w = true -> lo <= length w ->
    (forall h, hi = Some h -> length w <= h) ->
    derives (Rep g lo hi p) w c c
| D_seq r1 r2 w1 w2 c0 c1 c2 :
    derives r1 w1 c0 c1 -> derives r2 w2 c1 c2 ->
    derives (Seq r1 r2) (w1 ++ w2) c0 c2
| D_alt_l r1 r2 w c c' : derives r1 w c c' -> derives (Alt r1 r2) w c c'
| D_alt_r r1 r2 w c c' : derives r2 w c c' -> derives (Alt r1 r2) w c c'
| D_grp r w c c' : derives r w c c' -> derives (Grp r) w c (c' ++ [w]).

(** The least number of characters a match of [r] takes. *)
Fixpoint min_len (r : regex) : nat :=
  match r with
  | Eps => 0
  | Cls _ => 1
  | Rep _ lo _ _ => lo
  | Seq r1 r2 => min_len r1 + min_len r2
  | Alt r1 r2 => Nat.min (min_len r1) (min_len r2)
  | Grp r1 => min_len r1
  end.

(** [r] has no capture group. *)
Fixpoint no_groups (r : regex) : bool :=
  match r with
  | Eps | Cls _ | Rep _ _ _ _ => true
  | Seq r1 r2 | Alt r1 r2 => no_groups r1 && no_groups r2
  | Grp _ => false
  end.

(** [t] is [s] from some position on. *)
Definition suffix (t s : str) : Prop := exists pre, s = pre ++ t.

(** [sub] occurs in [s] up to the case of ASCII letters ([sub] in lower case). *)
Definition contains_i (sub s : str) : bool :=
  contains sub (map ascii_tolower s).

(** What [re.sub] with the pattern [\s+] and one space computes, written as
    a plain recursion: every run of white space becomes one space ([in_run]
    tells that the previous character was white space). *)
Fixpoint squeeze (in_run : bool) (s : str) : str :=
  match s with
  | [] => []
  | c :: s' =>
      if is_space c then
        if in_run then squeeze true s' else 32%N :: squeeze true s'
      else c :: squeeze false s'
  end.

(** All white space of [s] is single spaces between other characters; with
    [prev], [s] does not start with white space either. *)
Fixpoint tight (prev : bool) (s : str) : bool :=
  match s with
  | [] => true
  | c :: s' =>
      if is_space c then N.eqb c 32 && negb prev && tight true s'
      else tight false s'
  end.

(** [t] is left unchanged by the white-space steps of [normalize_text]. *)
Definition collapsed (t : str) : Prop := strip (sub ws_re (lit " ") t) = t.

(** An href is absolute when [urlsplit] finds a scheme in it. *)
Definition has_scheme (L : pylib) (url : str) : bool :=
  match UrlParse.urlsplit L url [] with
  | Return r => UrlParse.nonempty (UrlParse.s_scheme r)
  | Raise _ => false
  end.

(** A URL of ASCII characters without square brackets: [urlsplit] does not
    refuse such a URL. *)
Definition plain_char (c : N) : bool :=
  is_ascii c && negb (N.eqb c 91) && negb (N.eqb c 93).
Definition plain_url (url : str) : bool := forallb plain_char url.

(** ** Paths made of segments

    A dot segment, a name (a segment that is not empty, has no slash and is
    no dot segment), the number of [..] among dot segments, and the path
    with the directories [dirs] and the last segment [leaf]. *)
Definition is_dot (s : str) : bool := str_in [lit "."; lit ".."] s.
Definition is_name (s : str) : bool :=
  UrlParse.nonempty s && negb (char_in s UrlParse.slash) && negb (is_dot s).
Definition ups (dots : list str) : nat :=
  length (filter (fun s => str_eqb s (lit "..")) dots).
Definition path_of (dirs : list str) (leaf : str) : str :=
  lit "/" ++ UrlParse.join (lit "/") (dirs ++ [leaf]).

(** A character that is unreserved in a URL (a letter, a digit or one of
    [-._~]), a text of such characters, and the characters of a path made
    of such texts. *)
Definition unreserved (c : N) : bool :=
  (is_lower_ascii c || is_upper_ascii c || is_digit c
   || (c =? 45) || (c =? 46) || (c =? 95) || (c =? 126))%N.
Definition word (s : str) : bool := forallb unreserved s.
Definition path_char (c : N) : bool := unreserved c || N.eqb c UrlParse.slash.


(** ** Pages made of well-formed anchors

    One anchor element as an author writes it, with the text before it: the
    tag and attribute names in any case, white space between them, the href
    in double quotes, nothing else in the opening tag. *)

Record element := {
  e_gap : str;
  e_open : str;
  e_space : str;
  e_attr : str;
  e_href : str;
  e_inner : str;
  e_close : str
}.

Definition render_element (e : element) : str :=
  e_gap e ++ e_open e ++ e_space e ++ e_attr e ++ dq ++ e_href e ++ dq
  ++ lit ">" ++ e_inner e ++ e_close e.

(** The elements one after the other, and the text after the last one. *)
Fixpoint render (es : list element) (tail : str) : str :=
  match es with
  | [] => tail
  | e :: es' => render_element e ++ render es' tail
  end.

(** The last [n] characters of [s] (all of [s] when it is shorter). *)
Definition last_chars (n : nat) (s : str) : str := skipn (length s - n) s.

(** The text between anchors opens no tag whose name starts with [a]; the
    names are [<a], [href=] and [</a>] up to case; the href is not empty,
    has no double quote and no [>], and does not end in [href=]; the inner
    content has no closing anchor tag. *)
Definition well_formed (e : element) : bool :=
  negb (contains_i (lit "<a") (e_gap e))
  && str_eqb (map ascii_tolower (e_open e)) (lit "<a")
  && negb (str_eqb (e_space e) []) && forallb is_space (e_space e)
  && str_eqb (map ascii_tolower (e_attr e)) (lit "href=")
  && negb (str_eqb (e_href e) [])
  && forallb (other_than (dq ++ lit ">")) (e_href e)
  && negb (str_eqb (map ascii_tolower (last_chars 5 (e_href e))) (lit "href="))
  && negb (contains_i (lit "</a>") (e_inner e))
  && str_eqb (map ascii_tolower (e_close e)) (lit "</a>").

(** The record [re.findall] is expected to give for an element. *)
Definition record_of (e : element) : str * str := (e_href e, e_inner e).

(** ** Example inputs *)

(** [<a href=Qhref_valueQ>inner</a>], with Q the double quote. *)
Definition anchor (href_value inner : str) : str :=
  lit "<a href=" ++ dq ++ href_value ++ dq ++ lit ">" ++ inner ++ lit "</a>".

Definition example_base : str := lit "https://example.org/".

(** The page of the scenarios: one link to the aarch64 runtime. *)
Definition page_aarch64 : str :=
  anchor (lit "/dl/runtime-aarch64.tar.gz") (lit "ARM64 Runtime").

(** An anchor whose href has an unmatched bracket in its authority. *)
Definition page_bad_authority : str :=
  anchor (lit "//[runtime-x86_64") (lit "x").


(** An anchor without href attribute but with a [data-href] attribute. *)
Definition page_data_href : str :=
  lit "<a data-href=" ++ dq ++ lit "runtime-x86_64.tgz" ++ dq ++ lit ">x</a>".




(** Three anchors: the first does not qualify, the other two do. *)
Definition page_three : str :=
  anchor (lit "/docs/index.html") (lit "Documentation")
  ++ anchor (lit "/dl/runtime-aarch64.tar.gz") (lit "ARM64 Runtime")
  ++ anchor (lit "/old/runtime-aarch64.tar.gz") (lit "ARM64 Runtime (old)").

(** The anchors of the two matching examples: an upper-case href, and an
    inner content with an entity. *)
Definition page_upper : str := anchor (lit "RUNTIME-X86_64.tgz") (lit "download").

(** A listing of two well-formed anchors with markup around and in them. *)
Definition listing : list element := [
  {| e_gap := lit "<p>Downloads</p> "; e_open := lit "<A";
     e_space := lit "  "; e_attr := lit "HREF=";
     e_href := lit "/docs/index.html?lang=en";
     e_inner := lit "<b>Documentation</b>"; e_close := lit "</A>" |};
  {| e_gap := lit ", "; e_open := lit "<a"; e_space := lit " ";
     e_attr := lit "href="; e_href := lit "/dl/runtime-aarch64.tar.gz";
     e_inner := lit "ARM64 Runtime"; e_close := lit "</a>" |}
].

(** An anchor whose href is a reference to a control character, which
    [html.unescape] decodes to the empty string. *)
Definition page_blank_href : str :=
  anchor (lit "&#1;") (lit "musl runtime x86_64").

(** A numeric character reference of 4301 digits, one more than [int]
    converts under the default limit. *)
Definition long_reference : str := lit "&#" ++ repeat 49%N 4301 ++ lit ";".

(** A page whose only anchor has the long reference as its inner content,
    and the same page with a qualifying anchor after it. *)
Definition page_long_reference : str := anchor (lit "notes.html") long_reference.
Definition page_long_reference_first : str :=
  page_long_reference ++ anchor (lit "/dl/runtime-x86_64.tgz") (lit "x").

(** An anchor with its href in single quotes. *)
Definition page_single_quotes : str :=
  lit "<a href='runtime-x86_64.tgz'>musl runtime x86_64</a>".


(** A process with all three inputs given by flags. *)
Definition process_with (html home_url needle_arch : str) : process := {|
  args := {| args_html := Some html; args_home_url := Some home_url;
             args_needle_arch := Some needle_arch |};
  environ := [];
  stdin_isatty := true;
  stdin_read := [];
  stdout_print := fun _ => Written
|}.

(** * Properties *)

(** ** Which exceptions the library functions raise *)

Ltac break_match :=
  match goal with
  | |- context [match ?x with _ => _ end] => destruct x eqn:?
  | H : context [match ?x with _ => _ end] |- _ => destruct x eqn:?
  end.

Lemma str_eqb_eq a : forall b, str_eqb a b = true -> a = b.
Proof.
  induction a as [|x a IH]; intros [|y b] H; try discriminate; [reflexivity|].
  cbn [str_eqb] in H. apply andb_prop in H as [Hx Hab].
  apply N.eqb_eq in Hx. subst. f_equal. auto.
Qed.

Lemma firstn_matched (a b : str) :
  firstn (length (a ++ b) - length b) (a ++ b) = a.
Proof.
  rewrite length_app, Nat.add_sub, firstn_app, firstn_all, Nat.sub_diag.
  cbn [firstn]. apply app_nil_r.
Qed.

Lemma int10_raise L s e : Html.int10 L s = Raise e -> e = ValueError.
Proof.
  unfold Html.int10. destruct (Html.too_many_digits L s); congruence.
Qed.

Lemma replace_charref_raise L s e :
  Html.replace_charref L s = Raise e -> e = ValueError.
Proof.
  unfold Html.replace_charref, bind.
  repeat break_match; try congruence; intros H; try congruence.
  inversion H; subst. eapply int10_raise; eassumption.
Qed.

Lemma replace_pieces_raise repl ps e :
  (forall caps e', repl caps = Raise e' -> e' = ValueError) ->
  replace_pieces repl ps = Raise e -> e = ValueError.
Proof.
  intros Hrepl. induction ps as [|p ps IH]; simpl; [congruence|].
  destruct p as [c|w caps]; unfold bind.
  - destruct (replace_pieces repl ps); [congruence|].
    intros H; apply IH; congruence.
  - destruct (repl caps) eqn:Hr.
    + destruct (replace_pieces repl ps); [congruence|].
      intros H; apply IH; congruence.
    + intros H. apply (Hrepl caps). congruence.
Qed.

Lemma unescape_raise L s e : Html.unescape L s = Raise e -> e = ValueError.
Proof.
  unfold Html.unescape, sub_with.
  destruct (negb (char_in s 38%N)); [congruence|].
  apply replace_pieces_raise.
  intros [|g caps] e'; [congruence|apply replace_charref_raise].
Qed.

Lemma normalize_text_raise L s e : normalize_text L s = Raise e -> e = ValueError.
Proof.
  unfold normalize_text, bind.
  destruct (Html.unescape L _) eqn:H; [congruence|].
  intros H'. inversion H'; subst. apply (unescape_raise _ _ _ H).
Qed.

Lemma urlsplit_raise L url sch e :
  UrlParse.urlsplit L url sch = Raise e -> e = ValueError.
Proof.
  unfold UrlParse.urlsplit.
  repeat break_match; intros H; congruence.
Qed.

Lemma urlparse_raise L url sch e :
  UrlParse.urlparse L url sch = Raise e -> e = ValueError.
Proof.
  unfold UrlParse.urlparse, bind.
  destruct (UrlParse.urlsplit L url sch) eqn:Hs.
  - break_match; congruence.
  - intros H; inversion H; subst. eapply urlsplit_raise; eassumption.
Qed.

Lemma urljoin_raise L base url e :
  UrlParse.urljoin L base url = Raise e -> e = ValueError.
Proof.
  unfold UrlParse.urljoin, bind.
  destruct (negb (UrlParse.nonempty base)); [congruence|].
  destruct (negb (UrlParse.nonempty url)); [congruence|].
  destruct (UrlParse.urlparse L base []) as [b|e1] eqn:Hb.
  - destruct (UrlParse.urlparse L url (UrlParse.scheme b)) as [u|e2] eqn:Hu.
    + repeat break_match; congruence.
    + intros H; inversion H; subst. eapply urlparse_raise; eassumption.
  - intros H; inversion H; subst. eapply urlparse_raise; eassumption.
Qed.

Lemma qualifies_raise L needle a e :
  qualifies L needle a = Raise e -> e = ValueError.
Proof.
  unfold qualifies, bind.
  destruct (Html.unescape L (fst a)) eqn:Hu.
  - destruct (normalize_text L (snd a)) eqn:Hn; [congruence|].
    intros H; inversion H; subst. eapply normalize_text_raise; eassumption.
  - intros H; inversion H; subst. eapply unescape_raise; eassumption.
Qed.

Create HintDb raises.
#[local] Hint Resolve int10_raise unescape_raise normalize_text_raise
  urlparse_raise urljoin_raise qualifies_raise : raises.

(** ** The matcher only reports texts the pattern derives *)

Lemma rep_sound {A} g p s : forall lo hi (k : str -> option A) x,
  rep g p lo hi s k = Some x ->
  exists w s', s = w ++ s' /\ forallb p w = true /\ lo <= length w /\
               (forall h, hi = Some h -> length w <= h) /\ k s' = Some x.
Proof.
  induction s as [|c s IH]; intros lo hi k x H.
  - exists [], []. destruct g, lo; simpl in H; try discriminate;
      try (destruct (k []); discriminate);
      (repeat split; [lia | intros; simpl; lia | ]);
      destruct (k []); congruence.
  - assert (Hstop : lo = 0 /\ k (c :: s) = Some x ->
              exists w s', c :: s = w ++ s' /\ forallb p w = true /\
                lo <= length w /\
                (forall h, hi = Some h -> length w <= h) /\ k s' = Some x).
    { intros [-> Hk]. exists [], (c :: s).
      repeat split; auto; intros; simpl; lia. }
    assert (Hmore : p c && negb (exhausted hi) = true ->
              rep g p (pred lo) (option_map pred hi) s k = Some x ->
              exists w s', c :: s = w ++ s' /\ forallb p w = true /\
                lo <= length w /\
                (forall h, hi = Some h -> length w <= h) /\ k s' = Some x).
    { intros Hc Hr. apply andb_prop in Hc as [Hpc Hex].
      apply IH in Hr as (w & s' & -> & Hw & Hlo & Hhi & Hk).
      exists (c :: w), s'. simpl. rewrite Hpc, Hw.
      repeat split; auto; [lia|].
      intros h ->. destruct h; [discriminate|].
      specialize (Hhi h eq_refl). lia. }
    destruct g; simpl in H.
    + destruct (p c && negb (exhausted hi)) eqn:Hc.
      * destruct (rep true p (pred lo) (option_map pred hi) s k) eqn:Hr.
        -- inversion H; subst. auto.
        -- destruct lo; [|discriminate]. auto.
      * destruct lo; [|discriminate]. auto.
    + destruct lo.
      * destruct (k (c :: s)) eqn:Hk.
        -- inversion H; subst. auto.
        -- destruct (p c && negb (exhausted hi)) eqn:Hc; [|discriminate]. auto.
      * destruct (p c && negb (exhausted hi)) eqn:Hc; [|discriminate]. auto.
Qed.

Lemma exec_sound {A} r : forall s caps (k : str -> list str -> option A) x,
  exec r s caps k = Some x ->
  exists w s' caps', s = w ++ s' /\ derives r w caps caps' /\
                     k s' caps' = Some x.
Proof.
  induction r as [|p|g lo hi p|r1 IH1 r2 IH2|r1 IH1 r2 IH2|r1 IH1];
    intros s caps k x H; simpl in H.
  - exists [], s, caps. repeat split; auto. constructor.
  - destruct s as [|c s]; [discriminate|].
    destruct (p c) eqn:Hp; [|discriminate].
    exists [c], s, caps. repeat split; auto. constructor; assumption.
  - apply rep_sound in H as (w & s' & -> & Hw & Hlo & Hhi & Hk).
    exists w, s', caps. repeat split; auto. constructor; assumption.
  - apply IH1 in H as (w1 & s1 & c1 & -> & D1 & H).
    apply IH2 in H as (w2 & s2 & c2 & -> & D2 & H).
    exists (w1 ++ w2), s2, c2. rewrite app_assoc.
    repeat split; auto. econstructor; eassumption.
  - destruct (exec r1 s caps k) eqn:H1.
    + inversion H; subst. apply IH1 in H1 as (w & s' & c' & -> & D & Hk).
      exists w, s', c'. repeat split; auto. apply D_alt_l; assumption.
    + apply IH2 in H as (w & s' & c' & -> & D & Hk).
      exists w, s', c'. repeat split; auto. apply D_alt_r; assumption.
  - apply IH1 in H as (w & s' & c' & -> & D & Hk).
    exists w, s', (c' ++ [w]). repeat split; auto.
    + constructor; assumption.
    + rewrite length_app in Hk.
      replace (length w + length s' - length s') with (length w) in Hk by lia.
      rewrite firstn_app, firstn_all, Nat.sub_diag in Hk. simpl in Hk.
      rewrite app_nil_r in Hk. exact Hk.
Qed.

Lemma match_at_sound r s caps rest :
  match_at r s = Some (caps, rest) ->
  exists w, s = w ++ rest /\ derives r w [] caps.
Proof.
  unfold match_at. intros H.
  apply exec_sound in H as (w & s' & c' & -> & D & Hk).
  inversion Hk; subst. exists w; auto.
Qed.

Lemma derives_min_len r w c c' : derives r w c c' -> min_len r <= length w.
Proof.
  induction 1; cbn [min_len length]; try lia.
  rewrite length_app. lia.
Qed.

(** A match of a pattern that cannot match the empty text takes characters. *)
Lemma match_consumes r s caps rest :
  1 <= min_len r -> match_at r s = Some (caps, rest) ->
  length rest < length s.
Proof.
  intros Hmin H. apply match_at_sound in H as (w & -> & D).
  apply derives_min_len in D. rewrite length_app. lia.
Qed.

Lemma tag_re_consumes s caps rest :
  match_at tag_re s = Some (caps, rest) -> length rest < length s.
Proof. apply match_consumes. vm_compute. lia. Qed.

Lemma ws_re_consumes s caps rest :
  match_at ws_re s = Some (caps, rest) -> length rest < length s.
Proof. apply match_consumes. vm_compute. lia. Qed.

Lemma anchor_re_consumes s caps rest :
  match_at anchor_re s = Some (caps, rest) -> length rest < length s.
Proof. apply match_consumes. vm_compute. lia. Qed.

Lemma charref_consumes s caps rest :
  match_at Html.charref s = Some (caps, rest) -> length rest < length s.
Proof. apply match_consumes. vm_compute. lia. Qed.

Lemma derives_no_groups r w c c' :
  derives r w c c' -> no_groups r = true -> c' = c.
Proof.
  induction 1; cbn [no_groups]; intros Hg;
    try reflexivity; try discriminate;
    apply andb_prop in Hg as [Hg1 Hg2]; auto.
  rewrite IHderives2, IHderives1; auto.
Qed.

Lemma suffix_length t s : suffix t s -> length t <= length s.
Proof. intros [pre ->]. rewrite length_app. lia. Qed.

(** Every match reported by the scan is a match at some position. *)
Lemma scan_hit r s : forall skip w caps,
  In (Hit w caps) (scan r s skip) ->
  exists t rest, suffix t s /\ match_at r t = Some (caps, rest).
Proof.
  induction s as [|c s IH]; intros skip w caps Hin; [contradiction|].
  assert (Hsuf : forall t, suffix t s -> suffix t (c :: s)).
  { intros t [pre ->]. exists (c :: pre). reflexivity. }
  simpl in Hin. destruct skip.
  - destruct (match_at r (c :: s)) as [[caps' rest]|] eqn:Hm.
    + destruct Hin as [Heq|Hin].
      * inversion Heq; subst. exists (c :: s), rest. split; auto.
        exists []. reflexivity.
      * apply IH in Hin as (t & rest' & Ht & Hm'). eauto.
    + destruct Hin as [Heq|Hin]; [discriminate|].
      apply IH in Hin as (t & rest' & Ht & Hm'). eauto.
  - apply IH in Hin as (t & rest' & Ht & Hm'). eauto.
Qed.

Lemma findall2_hit r s g1 g2 :
  In (g1, g2) (findall2 r s) ->
  exists t rest, suffix t s /\ match_at r t = Some ([g1; g2], rest).
Proof.
  unfold findall2. rewrite in_flat_map. intros ([c|w caps] & Hin & Hg).
  - contradiction.
  - destruct caps as [|a [|b [|? ?]]]; try contradiction.
    destruct Hg as [Heq|[]]. inversion Heq; subst.
    eapply scan_hit; eassumption.
Qed.

Lemma scan_length r s : forall k, length (scan r s k) <= length s.
Proof.
  induction s as [|c s IH]; intros k; [apply Nat.le_refl|].
  cbn [scan]. destruct k.
  - destruct (match_at r (c :: s)) as [[caps rest]|];
      cbn [length]; apply le_n_S, IH.
  - cbn [length]. apply Nat.le_trans with (length s); [apply IH|lia].
Qed.

Lemma sub_length r c s : length (sub r [c] s) <= length s.
Proof.
  unfold sub. apply Nat.le_trans with (length (scan r s 0));
    [|apply scan_length].
  induction (scan r s 0) as [|p ps IH]; [apply Nat.le_refl|].
  cbn [flat_map]. rewrite length_app. destruct p; cbn [length]; lia.
Qed.

(** ** The shape of an extracted anchor *)

Lemma derives_text_i t : forall w c c',
  derives (text_i t) w c c' -> map ascii_tolower w = t /\ c' = c.
Proof.
  induction t as [|x t IH]; intros w c c' D; unfold text_i in *; simpl in D.
  - inversion D; subst. auto.
  - inversion D as [| | |r1 r2 w1 w2 c0 c1 c2 D1 D2| | |]; subst.
    inversion D1; subst. apply IH in D2 as [<- ->].
    split; [|reflexivity]. simpl. f_equal.
    match goal with H : N.eqb _ _ = true |- _ => apply N.eqb_eq in H; exact H end.
Qed.

Lemma derives_rep_inv g lo hi p w c c' :
  derives (Rep g lo hi p) w c c' ->
  forallb p w = true /\ lo <= length w /\ c' = c.
Proof. intros D; inversion D; subst; auto. Qed.

Lemma startswith_app p s : startswith p (p ++ s) = true.
Proof.
  induction p as [|x p IH]; [reflexivity|].
  simpl. rewrite N.eqb_refl. exact IH.
Qed.

Lemma contains_app_r sub a b : contains sub b = true -> contains sub (a ++ b) = true.
Proof.
  intros H. induction a as [|x a IH]; [exact H|].
  simpl. rewrite IH. apply orb_true_r.
Qed.

Lemma contains_startswith sub s : startswith sub s = true -> contains sub s = true.
Proof. intros H. destruct s; simpl; rewrite H; reflexivity. Qed.

Lemma contains_middle sub a b : contains sub (a ++ sub ++ b) = true.
Proof.
  apply contains_app_r, contains_startswith, startswith_app.
Qed.

(** A match of the anchor pattern: two groups, the first one not empty and
    free of double quotes, and a closing tag at the end of the matched text. *)
Lemma anchor_match_shape s caps rest :
  match_at anchor_re s = Some (caps, rest) ->
  exists before href mid inner close,
    s = before ++ href ++ mid ++ inner ++ close ++ rest /\
    caps = [href; inner] /\ href <> [] /\
    forallb (other_than dq) href = true /\
    map ascii_tolower close = lit "</a>".
Proof.
  intros H. apply match_at_sound in H as (w & -> & D).
  unfold anchor_re in D. cbn [cat] in D.
  repeat match goal with
         | H : derives (Seq _ _) _ _ _ |- _ => inversion H; subst; clear H
         | H : derives Eps _ _ _ |- _ => inversion H; subst; clear H
         | H : derives (Grp _) _ _ _ |- _ => inversion H; subst; clear H
         | H : derives (text_i _) _ _ _ |- _ =>
             apply derives_text_i in H; destruct H; subst
         | H : derives (plus _) _ _ _ |- _ =>
             apply derives_rep_inv in H; destruct H as (? & ? & ?); subst
         | H : derives (star _) _ _ _ |- _ =>
             apply derives_rep_inv in H; destruct H as (? & ? & ?); subst
         | H : derives (star_lazy _) _ _ _ |- _ =>
             apply derives_rep_inv in H; destruct H as (? & ? & ?); subst
         end.
  match goal with
  | Hh : forallb (other_than dq) ?h = true, Hc : map ascii_tolower ?c = lit "</a>",
    Hi : forallb any ?i = true
    |- context [?w1 ++ ?w0 ++ ?w2 ++ ?w3 ++ ?h ++ ?w5 ++ ?w6 ++ ?w7 ++ ?i ++ ?c ++ []] =>
      exists (w1 ++ w0 ++ w2 ++ w3), h, (w5 ++ w6 ++ w7), i, c
  end.
  repeat split; auto.
  - repeat rewrite <- app_assoc. rewrite app_nil_l. reflexivity.
  - intros ->. simpl in *. lia.
Qed.

(** What [re.findall] returns for the anchor pattern, anchor by anchor. *)
Lemma anchors_shape html href inner :
  In (href, inner) (findall2 anchor_re html) ->
  href <> [] /\ forallb (other_than dq) href = true /\
  contains_i (lit "</a>") html = true.
Proof.
  intros Hin. apply findall2_hit in Hin as (t & rest & [pre ->] & Hm).
  apply anchor_match_shape in Hm
    as (before & h & mid & i & close & -> & Hcaps & Hne & Hq & Hclose).
  inversion Hcaps; subst. repeat split; auto.
  unfold contains_i. repeat rewrite map_app. rewrite Hclose.
  repeat rewrite app_assoc.
  repeat rewrite <- (app_assoc _ (lit "</a>")).
  apply contains_middle.
Qed.

Lemma anchors_length html href inner :
  In (href, inner) (findall2 anchor_re html) ->
  length href <= length html /\ length inner <= length html.
Proof.
  intros Hin. apply findall2_hit in Hin as (t & rest & Hsuf & Hm).
  apply suffix_length in Hsuf.
  apply anchor_match_shape in Hm
    as (before & h & mid & i & close & -> & Hcaps & _).
  inversion Hcaps; subst. repeat rewrite length_app in Hsuf. lia.
Qed.

(** ** When decoding cannot fail *)

Lemma rstrip_length p s : length (rstrip p s) <= length s.
Proof.
  induction s as [|c s IH]; [apply Nat.le_refl|].
  cbn [rstrip]. destruct (rstrip p s) as [|d r].
  - destruct (p c); cbn [length]; lia.
  - cbn [length] in *. lia.
Qed.

Lemma int10_within_limit L x :
  int_max_str_digits L = 0 \/ length x <= 640 ->
  exists n, Html.int10 L x = Return n.
Proof.
  intros H. unfold Html.int10, Html.too_many_digits.
  replace ((640 <? length x) && (0 <? int_max_str_digits L)
           && (int_max_str_digits L <? length x)) with false; [eauto|].
  symmetry. destruct H as [-> | H].
  - rewrite andb_false_r. reflexivity.
  - replace (640 <? length x) with false
      by (symmetry; apply Nat.ltb_ge; exact H).
    reflexivity.
Qed.

Lemma replace_charref_within_limit L g :
  int_max_str_digits L = 0 \/ length g <= 640 ->
  exists v, Html.replace_charref L g = Return v.
Proof.
  intros H.
  assert (Hint : forall x, length x <= length g ->
                           exists n, Html.int10 L x = Return n).
  { intros x Hx. apply int10_within_limit. destruct H; [auto|right; lia]. }
  unfold Html.replace_charref, bind.
  repeat break_match; eauto; subst; try discriminate.
  match goal with
  | Hr : Html.int10 L (rstrip ?p ?x) = Raise _ |- _ =>
      destruct (Hint (rstrip p x)) as [n Hn];
        [pose proof (rstrip_length p x); cbn [length] in *; lia
        |congruence]
  end.
Qed.

Lemma charref_match_group t caps rest :
  match_at Html.charref t = Some (caps, rest) ->
  exists g, caps = [g] /\ length g <= length t.
Proof.
  intros H. apply match_at_sound in H as (w & -> & D).
  unfold Html.charref in D.
  inversion D as [| | |r1 r2 w1 w2 c0 c1 c2 D1 D2| | |]; subst.
  inversion D1; subst. inversion D2; subst.
  match goal with
  | Hd : derives (Alt _ _) _ _ _ |- _ =>
      apply derives_no_groups in Hd; [subst|vm_compute; reflexivity]
  end.
  exists w2. split; [reflexivity|].
  repeat rewrite length_app. lia.
Qed.

Lemma replace_pieces_total repl ps :
  (forall w caps, In (Hit w caps) ps -> exists v, repl caps = Return v) ->
  exists out, replace_pieces repl ps = Return out.
Proof.
  induction ps as [|p ps IH]; intros H; [exists []; reflexivity|].
  destruct IH as [out Hout]; [intros w caps Hin; apply (H w); right; exact Hin|].
  destruct p as [c|w caps]; cbn [replace_pieces].
  - rewrite Hout. cbn [bind]. eauto.
  - destruct (H w caps) as [v Hv]; [left; reflexivity|].
    rewrite Hv, Hout. cbn [bind]. eauto.
Qed.

Lemma unescape_within_limit L s :
  int_max_str_digits L = 0 \/ length s <= 640 ->
  exists t, Html.unescape L s = Return t.
Proof.
  intros H. unfold Html.unescape.
  destruct (negb (char_in s 38%N)); [eauto|].
  unfold sub_with. apply replace_pieces_total.
  intros w caps Hin. apply scan_hit in Hin as (t & rest & Hsuf & Hm).
  apply charref_match_group in Hm as (g & -> & Hg).
  apply replace_charref_within_limit.
  apply suffix_length in Hsuf. destruct H; [auto|right; lia].
Qed.

Lemma normalize_text_within_limit L s :
  int_max_str_digits L = 0 \/ length s <= 640 ->
  exists t, normalize_text L s = Return t.
Proof.
  intros H. unfold normalize_text.
  destruct (unescape_within_limit L (sub tag_re (lit " ") s)) as [u Hu].
  - destruct H; [auto|right].
    apply Nat.le_trans with (length s); [apply (sub_length tag_re 32%N)|exact H].
  - rewrite Hu. cbn [bind]. eauto.
Qed.

Lemma qualifies_within_limit L needle (a : str * str) :
  int_max_str_digits L = 0 \/
  (length (fst a) <= 640 /\ length (snd a) <= 640) ->
  exists b, qualifies L needle a = Return b.
Proof.
  intros H. unfold qualifies.
  destruct (unescape_within_limit L (fst a)) as [hu Hu]; [tauto|].
  destruct (normalize_text_within_limit L (snd a)) as [text Ht]; [tauto|].
  rewrite Hu, Ht. cbn [bind]. eauto.
Qed.

Lemma unescape_without_amp L s :
  char_in s 38%N = false -> Html.unescape L s = Return s.
Proof. intros H. unfold Html.unescape. rewrite H. reflexivity. Qed.

(** ** URLs that [urljoin] accepts *)

Import UrlParse.

Lemma forallb_dropwhile q p s :
  forallb q s = true -> forallb q (dropwhile p s) = true.
Proof.
  induction s as [|c s IH]; [reflexivity|].
  cbn [dropwhile]. destruct (p c); [|tauto].
  cbn [forallb]. intros H. apply andb_prop in H as [_ H]. auto.
Qed.

Lemma forallb_filter q p (s : str) :
  forallb q s = true -> forallb q (filter p s) = true.
Proof.
  induction s as [|c s IH]; [reflexivity|].
  cbn [forallb filter]. intros H. apply andb_prop in H as [Hc H].
  destruct (p c); cbn [forallb]; [rewrite Hc|]; auto.
Qed.

Lemma forallb_skipn q n : forall s : str,
  forallb q s = true -> forallb q (skipn n s) = true.
Proof.
  induction n as [|n IH]; intros [|c s]; try tauto.
  cbn [forallb skipn]. intros H. apply andb_prop in H as [_ H]. auto.
Qed.

Lemma forallb_firstn q n : forall s : str,
  forallb q s = true -> forallb q (firstn n s) = true.
Proof.
  induction n as [|n IH]; intros [|c s]; try (intros; reflexivity).
  cbn [forallb firstn]. intros H. apply andb_prop in H as [Hc H].
  rewrite Hc. apply IH. exact H.
Qed.

Lemma plain_url_facts s :
  plain_url s = true ->
  char_in s 91%N = false /\ char_in s 93%N = false /\ isascii s = true.
Proof.
  unfold plain_url, char_in, isascii.
  induction s as [|c s IH]; [auto|].
  cbn [forallb existsb]. intros H. apply andb_prop in H as [Hc H].
  destruct (IH H) as (H1 & H2 & H3). rewrite H1, H2, H3.
  unfold plain_char in Hc.
  apply andb_prop in Hc as [Hc H93]. apply andb_prop in Hc as [Ha H91].
  rewrite Ha. rewrite N.eqb_sym in H91. rewrite N.eqb_sym in H93.
  destruct (N.eqb 91 c); [discriminate|].
  destruct (N.eqb 93 c); [discriminate|]. auto.
Qed.

(** [urlsplit], and with it [urlparse] and [urljoin], raise nothing on URLs
    of ASCII characters without square brackets. *)
Lemma urlsplit_returns L url sch :
  plain_url url = true -> exists r, urlsplit L url sch = Return r.
Proof.
  intros Hurl. unfold urlsplit.
  set (u1 := remove_chars unsafe_url_byte (lstrip c0_control_or_space url)).
  assert (H1 : plain_url u1 = true)
    by (apply forallb_filter, forallb_dropwhile; exact Hurl).
  destruct (match find 58%N u1 with
            | Some (S _ as i) =>
                match u1 with
                | c0 :: _ =>
                    if is_ascii_alpha c0 && forallb scheme_char (firstn i u1)
                    then (lower L (firstn i u1), skipn (S i) u1)
                    else (remove_chars unsafe_url_byte
                            (strip_chars c0_control_or_space sch), u1)
                | [] => (remove_chars unsafe_url_byte
                           (strip_chars c0_control_or_space sch), u1)
                end
            | _ => (remove_chars unsafe_url_byte
                      (strip_chars c0_control_or_space sch), u1)
            end) as [sch' u2] eqn:E1.
  assert (H2 : plain_url u2 = true).
  { destruct (find 58%N u1) as [[|i]|];
      try (apply (f_equal snd) in E1; cbn [snd] in E1; rewrite <- E1;
           exact H1).
    destruct u1 as [|c0 u1'];
      [apply (f_equal snd) in E1; cbn [snd] in E1; rewrite <- E1; exact H1|].
    destruct (is_ascii_alpha c0 && _);
      apply (f_equal snd) in E1; cbn [snd] in E1; rewrite <- E1;
      [apply forallb_skipn|]; exact H1. }
  destruct (if str_eqb (firstn 2 u2) (lit "//") then splitnetloc u2
            else ([], u2)) as [nl u3] eqn:E2.
  assert (H3 : plain_url nl = true).
  { destruct (str_eqb (firstn 2 u2) (lit "//"));
      apply (f_equal fst) in E2; cbn [fst] in E2; rewrite <- E2;
      [|reflexivity].
    unfold splitnetloc. cbn [fst].
    apply forallb_firstn, forallb_skipn. exact H2. }
  destruct (plain_url_facts nl H3) as (Hl & Hr & Ha).
  rewrite Hl, Hr. cbn [andb orb negb].
  unfold checknetloc. rewrite Ha, orb_true_r. cbn [negb].
  repeat break_match; eauto.
Qed.

Lemma urlparse_returns L url sch :
  plain_url url = true -> exists r, urlparse L url sch = Return r.
Proof.
  intros H. unfold urlparse.
  destruct (urlsplit_returns L url sch H) as [r ->]. cbn [bind].
  break_match. eauto.
Qed.

Lemma urljoin_returns L base url :
  plain_url base = true -> plain_url url = true ->
  exists r, urljoin L base url = Return r.
Proof.
  intros Hb Hu. unfold urljoin.
  destruct (negb (nonempty base)); [eauto|].
  destruct (negb (nonempty url)); [eauto|].
  destruct (urlparse_returns L base [] Hb) as [b ->]. cbn [bind].
  destruct (urlparse_returns L url (scheme b) Hu) as [u ->]. cbn [bind].
  repeat break_match; eauto.
Qed.

(** ** The loop over the anchors *)

(** One step of the loop, in terms of [qualifies]. *)
Lemma search_anchors_cons L home_url needle href inner rest :
  search_anchors L home_url needle ((href, inner) :: rest) =
  match qualifies L needle (href, inner) with
  | Return true =>
      hu <- Html.unescape L href ;; UrlParse.urljoin L home_url hu
  | Return false => search_anchors L home_url needle rest
  | Raise e => Raise e
  end.
Proof.
  simpl. unfold qualifies, bind; simpl.
  destruct (Html.unescape L href); [|reflexivity].
  destruct (normalize_text L inner); [|reflexivity].
  destruct (matches needle _); reflexivity.
Qed.

Lemma search_anchors_skip L home_url needle pre rest :
  Forall (fun a => qualifies L needle a = Return false) pre ->
  search_anchors L home_url needle (pre ++ rest) =
  search_anchors L home_url needle rest.
Proof.
  induction 1 as [|[href inner] pre Hq _ IH]; [reflexivity|].
  rewrite <- app_comm_cons, search_anchors_cons, Hq. exact IH.
Qed.


Lemma search_anchors_not_found_iff L home_url needle anchors :
  search_anchors L home_url needle anchors = Raise (SystemExit 1) <->
  Forall (fun a => qualifies L needle a = Return false) anchors.
Proof.
  induction anchors as [|[href inner] rest IH].
  - split; [constructor|reflexivity].
  - rewrite search_anchors_cons.
    destruct (qualifies L needle (href, inner)) as [[|]|e] eqn:Hq.
    + split.
      * unfold bind. destruct (Html.unescape L href) eqn:Hu; intros H.
        -- apply urljoin_raise in H. discriminate.
        -- inversion H; subst. apply unescape_raise in Hu. discriminate.
      * intros H; inversion H; subst. congruence.
    + rewrite IH. split.
      * intros H; constructor; assumption.
      * intros H; inversion H; assumption.
    + split.
      * intros H; inversion H; subst. apply qualifies_raise in Hq. discriminate.
      * intros H; inversion H; subst. congruence.
Qed.



Lemma earlier_anchors_fail L needle html pre rest :
  findall2 anchor_re html = pre ++ rest ->
  (forall a, In a pre -> qualifies L needle a <> Return true) ->
  (int_max_str_digits L = 0 \/ length html <= 640 \/
   forall a, In a pre -> exists b, qualifies L needle a = Return b) ->
  Forall (fun a => qualifies L needle a = Return false) pre.
Proof.
  intros Hanch Hnot Heval. apply Forall_forall. intros a Hin.
  assert (Hb : exists b, qualifies L needle a = Return b).
  { destruct Heval as [H0|[Hlen|Hev]]; [| |exact (Hev a Hin)];
      apply qualifies_within_limit; [left; exact H0|right].
    destruct a as [href inner].
    assert (Hin' : In (href, inner) (findall2 anchor_re html))
      by (rewrite Hanch; apply in_or_app; left; exact Hin).
    apply anchors_length in Hin'. cbn [fst snd]. lia. }
  destruct Hb as [[|] Hb]; [destruct (Hnot a Hin Hb)|exact Hb].
Qed.

Lemma qualifies_true L needle href inner :
  qualifies L needle (href, inner) = Return true <->
  exists hu text,
    Html.unescape L href = Return hu /\
    normalize_text L inner = Return text /\
    contains (lit "runtime") (lower L (hu ++ lit " " ++ text)) = true /\
    contains needle (lower L (hu ++ lit " " ++ text)) = true.
Proof.
  unfold qualifies, matches, haystack. cbn [fst snd]. split.
  - destruct (Html.unescape L href) as [hu|]; [|discriminate].
    destruct (normalize_text L inner) as [text|]; [|discriminate].
    cbn [bind]. intros H. inversion H as [Hm].
    apply andb_prop in Hm as [Hr Hn]. exists hu, text. rewrite Hr, Hn. auto.
  - intros (hu & text & -> & -> & Hr & Hn). cbn [bind].
    rewrite Hr, Hn. reflexivity.
Qed.

Lemma first_qualifying L needle anchors :
  (forall a, In a anchors -> exists b, qualifies L needle a = Return b) ->
  (exists a, In a anchors /\ qualifies L needle a = Return true) ->
  exists pre a post,
    anchors = pre ++ a :: post /\
    Forall (fun a => qualifies L needle a = Return false) pre /\
    qualifies L needle a = Return true.
Proof.
  induction anchors as [|x rest IH]; intros Hev (a & Hin & Ha);
    [contradiction|].
  destruct (Hev x (or_introl eq_refl)) as [[|] Hx].
  - exists [], x, rest. repeat split; [constructor|exact Hx].
  - destruct IH as (pre & y & post & -> & Hpre & Hy).
    + intros z Hz. apply Hev. right. exact Hz.
    + destruct Hin as [->|Hin]; [congruence|]. exists a. auto.
    + exists (x :: pre), y, post. repeat split; [constructor|]; assumption.
Qed.

(** C1, as amended. When the extracted anchors are [pre ++ (href, inner) ::
    post], [(href, inner)] qualifies (its haystack, the lower-cased
    entity-decoded href, a space and the normalized inner content, contains
    "runtime" and the lower-cased needle), no anchor of [pre] qualifies, and
    the page is within the digit limit of [int] (no limit, or at most 640
    characters; or, more generally, every anchor of [pre] can be evaluated),
    the result of [resolve_musl_runtime_url] is the join of the base URL
    with the decoded href of that first qualifying anchor, whatever anchors
    follow it; it is a URL when the base URL and the decoded href are ASCII
    text without square brackets. And on a page within the digit limit that
    has a qualifying anchor there is a first qualifying anchor, and the
    result is the join of the base URL with its decoded href. *)
Theorem resolve_first_qualifying_anchor L html home_url needle_arch :
  (forall pre href inner post hu text,
     findall2 anchor_re html = pre ++ (href, inner) :: post ->
     (forall a, In a pre ->
                qualifies L (lower L needle_arch) a <> Return true) ->
     (int_max_str_digits L = 0 \/ length html <= 640 \/
      forall a, In a pre ->
                exists b, qualifies L (lower L needle_arch) a = Return b) ->
     Html.unescape L href = Return hu ->
     normalize_text L inner = Return text ->
     contains (lit "runtime") (lower L (hu ++ lit " " ++ text)) = true ->
     contains (lower L needle_arch) (lower L (hu ++ lit " " ++ text)) = true ->
     resolve_musl_runtime_url L html home_url needle_arch =
     UrlParse.urljoin L home_url hu /\
     (plain_url home_url = true -> plain_url hu = true ->
      exists url,
        resolve_musl_runtime_url L html home_url needle_arch = Return url)) /\
  (int_max_str_digits L = 0 \/ length html <= 640 ->
   forall href inner hu text,
     In (href, inner) (findall2 anchor_re html) ->
     Html.unescape L href = Return hu ->
     normalize_text L inner = Return text ->
     contains (lit "runtime") (lower L (hu ++ lit " " ++ text)) = true ->
     contains (lower L needle_arch) (lower L (hu ++ lit " " ++ text)) = true ->
     exists pre href1 inner1 post hu1 text1,
       findall2 anchor_re html = pre ++ (href1, inner1) :: post /\
       Forall (fun a => qualifies L (lower L needle_arch) a = Return false)
              pre /\
       Html.unescape L href1 = Return hu1 /\
       normalize_text L inner1 = Return text1 /\
       contains (lit "runtime") (lower L (hu1 ++ lit " " ++ text1)) = true /\
       contains (lower L needle_arch) (lower L (hu1 ++ lit " " ++ text1))
       = true /\
       resolve_musl_runtime_url L html home_url needle_arch =
       UrlParse.urljoin L home_url hu1).
Proof.
  assert (Hfirst : forall pre href inner post hu text,
    findall2 anchor_re html = pre ++ (href, inner) :: post ->
    Forall (fun a => qualifies L (lower L needle_arch) a = Return false) pre ->
    Html.unescape L href = Return hu ->
    normalize_text L inner = Return text ->
    contains (lit "runtime") (lower L (hu ++ lit " " ++ text)) = true ->
    contains (lower L needle_arch) (lower L (hu ++ lit " " ++ text)) = true ->
    resolve_musl_runtime_url L html home_url needle_arch =
    UrlParse.urljoin L home_url hu).
  { intros pre href inner post hu text Hanch Hpre Hu Hn Hrun Hneedle.
    unfold resolve_musl_runtime_url. rewrite Hanch.
    rewrite (search_anchors_skip L home_url _ pre _ Hpre).
    simpl. rewrite Hu, Hn. simpl.
    unfold matches, haystack. rewrite Hrun, Hneedle. reflexivity. }
  split.
  - intros pre href inner post hu text Hanch Hnot Heval Hu Hn Hrun Hneedle.
    pose proof (earlier_anchors_fail L _ html pre _ Hanch Hnot Heval) as Hpre.
    pose proof (Hfirst _ _ _ _ _ _ Hanch Hpre Hu Hn Hrun Hneedle) as Heq.
    split; [exact Heq|].
    intros Hb Hh. rewrite Heq. apply urljoin_returns; assumption.
  - intros Hlimit href inner hu text Hin Hu Hn Hrun Hneedle.
    destruct (first_qualifying L (lower L needle_arch)
                (findall2 anchor_re html))
      as (pre & [href1 inner1] & post & Hanch & Hpre & Hq).
    + intros [h i] Ha. apply qualifies_within_limit.
      apply anchors_length in Ha. cbn [fst snd].
      destruct Hlimit; [auto|right; lia].
    + exists (href, inner). split; [exact Hin|].
      apply qualifies_true. exists hu, text. auto.
    + apply qualifies_true in Hq as (hu1 & text1 & Hu1 & Hn1 & Hr1 & Hne1).
      exists pre, href1, inner1, post, hu1, text1.
      repeat split; try assumption.
      exact (Hfirst _ _ _ _ _ _ Hanch Hpre Hu1 Hn1 Hr1 Hne1).
Qed.

Lemma resolve_first_qualifying_anchor_witness :
  resolve_musl_runtime_url ascii_lib page_three example_base (lit "AArch64")
  = UrlParse.urljoin ascii_lib example_base (lit "/dl/runtime-aarch64.tar.gz")
  /\ UrlParse.urljoin ascii_lib example_base (lit "/dl/runtime-aarch64.tar.gz")
     = Return (lit "https://example.org/dl/runtime-aarch64.tar.gz").
Proof.
  split; [|vm_compute; reflexivity].
  refine (proj1 (proj1 (resolve_first_qualifying_anchor ascii_lib page_three
                          example_base (lit "AArch64"))
           [(lit "/docs/index.html", lit "Documentation")]
           (lit "/dl/runtime-aarch64.tar.gz") (lit "ARM64 Runtime")
           [(lit "/old/runtime-aarch64.tar.gz", lit "ARM64 Runtime (old)")]
           (lit "/dl/runtime-aarch64.tar.gz") (lit "arm64 runtime")
           _ _ _ _ _ _ _)).
  - vm_compute; reflexivity.
  - intros a [<-|[]]. vm_compute. discriminate.
  - right; left. apply Nat.leb_le. vm_compute; reflexivity.
  - vm_compute; reflexivity.
  - vm_compute; reflexivity.
  - vm_compute; reflexivity.
  - vm_compute; reflexivity.
Defined.

(** C1, as stated, fails. The only anchor of the first page qualifies, and
    joining its href raises [ValueError]: no URL is returned. On the second
    page the inner content of the first anchor holds a reference of 4301
    digits, which [html.unescape] refuses: the second anchor is the first
    one whose haystack contains both keywords, and the loop raises
    [ValueError] before it reaches it. *)
Lemma first_qualifying_anchor_not_resolved :
  (findall2 anchor_re page_bad_authority
   = [(lit "//[runtime-x86_64", lit "x")] /\
   qualifies ascii_lib (lit "x86_64") (lit "//[runtime-x86_64", lit "x")
   = Return true /\
   resolve_musl_runtime_url ascii_lib page_bad_authority example_base
     (lit "x86_64") = Raise ValueError) /\
  (findall2 anchor_re page_long_reference_first
   = [(lit "notes.html", long_reference);
      (lit "/dl/runtime-x86_64.tgz", lit "x")] /\
   qualifies ascii_lib (lit "x86_64") (lit "notes.html", long_reference)
   = Raise ValueError /\
   qualifies ascii_lib (lit "x86_64") (lit "/dl/runtime-x86_64.tgz", lit "x")
   = Return true /\
   resolve_musl_runtime_url ascii_lib page_long_reference_first example_base
     (lit "x86_64") = Raise ValueError).
Proof. vm_compute. auto 8. Qed.

(** C2, as amended: [resolve_musl_runtime_url] signals not-found (raises
    [SystemExit] with status 1, producing no URL) if and only if every
    extracted anchor is evaluated and found not to qualify; on a page within
    the digit limit of [int] (no limit, or at most 640 characters), where
    every anchor can be evaluated, that is if and only if no extracted anchor
    qualifies. *)
Theorem resolve_not_found_iff L html home_url needle_arch :
  (resolve_musl_runtime_url L html home_url needle_arch = Raise (SystemExit 1)
   <->
   Forall (fun a => qualifies L (lower L needle_arch) a = Return false)
          (findall2 anchor_re html)) /\
  (int_max_str_digits L = 0 \/ length html <= 640 ->
   (resolve_musl_runtime_url L html home_url needle_arch = Raise (SystemExit 1)
    <->
    forall a, In a (findall2 anchor_re html) ->
              qualifies L (lower L needle_arch) a <> Return true)).
Proof.
  unfold resolve_musl_runtime_url. split.
  - apply search_anchors_not_found_iff.
  - intros Hlimit. rewrite search_anchors_not_found_iff, Forall_forall.
    split; intros H a Hin.
    + rewrite (H a Hin). discriminate.
    + destruct (qualifies_within_limit L (lower L needle_arch) a) as [b Hb].
      * destruct a as [href inner]. apply anchors_length in Hin.
        cbn [fst snd]. destruct Hlimit; [auto|right; lia].
      * destruct b; [|exact Hb]. destruct (H a Hin Hb).
Qed.

Lemma resolve_not_found_iff_witness :
  resolve_musl_runtime_url ascii_lib page_three example_base (lit "riscv64")
  = Raise (SystemExit 1) <->
  forall a, In a (findall2 anchor_re page_three) ->
            qualifies ascii_lib (lower ascii_lib (lit "riscv64")) a
            <> Return true.
Proof.
  apply (proj2 (resolve_not_found_iff ascii_lib page_three example_base
                  (lit "riscv64"))).
  right. apply Nat.leb_le. vm_compute; reflexivity.
Defined.

(** C2, as stated, fails: the only anchor of this page has a reference of
    4301 digits as its inner content, so it has no haystack and does not
    qualify, yet the result is [ValueError], not the not-found signal. *)
Lemma no_qualifying_anchor_yet_no_not_found :
  findall2 anchor_re page_long_reference
  = [(lit "notes.html", long_reference)] /\
  normalize_text ascii_lib long_reference = Raise ValueError /\
  (forall a, In a (findall2 anchor_re page_long_reference) ->
             qualifies ascii_lib (lit "x86_64") a <> Return true) /\
  resolve_musl_runtime_url ascii_lib page_long_reference example_base
    (lit "x86_64") = Raise ValueError /\
  resolve_musl_runtime_url ascii_lib page_long_reference example_base
    (lit "x86_64") <> Raise (SystemExit 1).
Proof.
  assert (Hf : findall2 anchor_re page_long_reference
               = [(lit "notes.html", long_reference)])
    by (vm_compute; reflexivity).
  split; [exact Hf|].
  split; [vm_compute; reflexivity|].
  split.
  - rewrite Hf. intros a [<-|[]]. vm_compute. discriminate.
  - split; [vm_compute; reflexivity|vm_compute; discriminate].
Qed.

(** ** Keyword matching *)

Lemma ascii_tolower_idempotent c : ascii_tolower (ascii_tolower c) = ascii_tolower c.
Proof.
  unfold ascii_tolower, is_upper_ascii.
  destruct ((65 <=? c) && (c <=? 90))%N eqn:H; [|rewrite H; reflexivity].
  apply andb_prop in H as [H1 H2].
  apply N.leb_le in H1. apply N.leb_le in H2.
  replace (c + 32 <=? 90)%N with false by (symmetry; apply N.leb_gt; lia).
  rewrite andb_false_r. reflexivity.
Qed.

Lemma ascii_tolower_is_ascii c : is_ascii (ascii_tolower c) = is_ascii c.
Proof.
  unfold ascii_tolower, is_upper_ascii, is_ascii.
  destruct ((65 <=? c) && (c <=? 90))%N eqn:H; [|reflexivity].
  apply andb_prop in H as [H1 H2].
  apply N.leb_le in H1. apply N.leb_le in H2.
  transitivity true; [apply N.ltb_lt; lia|symmetry; apply N.ltb_lt; lia].
Qed.

Lemma isascii_map_tolower s : isascii (map ascii_tolower s) = isascii s.
Proof.
  unfold isascii. induction s as [|c s IH]; [reflexivity|].
  simpl. rewrite ascii_tolower_is_ascii, IH. reflexivity.
Qed.

Lemma lower_ascii_idempotent L s :
  isascii s = true -> lower L (lower L s) = lower L s.
Proof.
  intros H. unfold lower. rewrite H, isascii_map_tolower, H.
  rewrite map_map. apply map_ext. intros c. apply ascii_tolower_idempotent.
Qed.








(** ** URL joining *)

Lemma nonempty_true s : s <> [] -> nonempty s = true.
Proof. destruct s; [contradiction|reflexivity]. Qed.

Lemma urlparse_cdn L dflt :
  urlparse L (lit "https://cdn.example.org/rt.tar.gz") dflt =
  Return {| scheme := lit "https"; netloc := lit "cdn.example.org";
            path := lit "/rt.tar.gz"; params := []; query := [];
            fragment := [] |}.
Proof. vm_compute. reflexivity. Qed.

Lemma split_no_slash s : char_in s slash = false -> split slash s = [s].
Proof.
  unfold char_in. induction s as [|x s IH]; [reflexivity|].
  cbn [existsb split]. intros H. apply orb_false_elim in H as [Hx H].
  rewrite N.eqb_sym in Hx. rewrite Hx, (IH H). reflexivity.
Qed.

Lemma split_app_slash a b :
  char_in a slash = false -> split slash (a ++ slash :: b) = a :: split slash b.
Proof.
  unfold char_in. induction a as [|x a IH]; intros H.
  - cbn [app split]. rewrite N.eqb_refl. reflexivity.
  - cbn [existsb] in H. apply orb_false_elim in H as [Hx H].
    rewrite N.eqb_sym in Hx. cbn [app split]. rewrite Hx, (IH H). reflexivity.
Qed.

Lemma split_join segs :
  segs <> [] ->
  forallb (fun s => negb (char_in s slash)) segs = true ->
  split slash (join (lit "/") segs) = segs.
Proof.
  induction segs as [|p [|q ps] IH]; intros Hne H; [contradiction| |].
  - cbn [join]. cbn [forallb] in H. apply andb_prop in H as [H _].
    apply negb_true_iff in H. apply split_no_slash. exact H.
  - cbn [forallb] in H. apply andb_prop in H as [Hp H].
    apply negb_true_iff in Hp.
    change (join (lit "/") (p :: q :: ps))
      with (p ++ slash :: join (lit "/") (q :: ps)).
    rewrite (split_app_slash _ _ Hp), IH; [reflexivity|discriminate|exact H].
Qed.

Lemma resolve_segments_app xs : forall ys acc,
  resolve_segments (xs ++ ys) acc = resolve_segments ys (resolve_segments xs acc).
Proof.
  induction xs as [|x xs IH]; intros ys acc; [reflexivity|].
  cbn [app resolve_segments].
  destruct (str_eqb x (lit "..")); [apply IH|].
  destruct (str_eqb x (lit ".")); apply IH.
Qed.

Lemma is_dot_false s :
  is_dot s = false ->
  str_eqb s (lit "..") = false /\ str_eqb s (lit ".") = false.
Proof.
  unfold is_dot, str_in. cbn [existsb]. rewrite orb_false_r.
  intros H. apply orb_false_elim in H. tauto.
Qed.

Lemma resolve_segments_names xs : forall acc,
  forallb (fun s => negb (is_dot s)) xs = true ->
  resolve_segments xs acc = acc ++ xs.
Proof.
  induction xs as [|x xs IH]; intros acc H; [symmetry; apply app_nil_r|].
  cbn [forallb] in H. apply andb_prop in H as [Hx H].
  apply negb_true_iff, is_dot_false in Hx as [H2 H1].
  cbn [resolve_segments]. rewrite H2, H1, (IH _ H), <- app_assoc.
  reflexivity.
Qed.

Lemma resolve_segments_dots ds : forall acc,
  forallb is_dot ds = true ->
  resolve_segments ds acc = Nat.iter (ups ds) (@removelast str) acc.
Proof.
  induction ds as [|d ds IH]; intros acc H; [reflexivity|].
  cbn [forallb] in H. apply andb_prop in H as [Hd H].
  cbn [resolve_segments]. unfold ups. cbn [filter].
  destruct (str_eqb d (lit "..")) eqn:E2.
  - cbn [length]. rewrite (IH _ H). unfold ups. apply Nat.iter_swap.
  - unfold is_dot, str_in in Hd. cbn [existsb] in Hd.
    rewrite E2 in Hd. cbn [orb] in Hd. rewrite orb_false_r in Hd.
    rewrite Hd. apply (IH _ H).
Qed.

Lemma removelast_iter k : forall l : list str,
  Nat.iter k (@removelast str) l = firstn (length l - k) l.
Proof.
  induction k as [|k IH]; intros l.
  - rewrite Nat.sub_0_r, firstn_all. reflexivity.
  - rewrite Nat.iter_succ, IH.
    destruct (Nat.le_gt_cases (length l) k) as [Hle|Hgt].
    + replace (length l - k) with 0 by lia.
      replace (length l - S k) with 0 by lia. reflexivity.
    + replace (length l - k) with (S (length l - S k)) by lia.
      apply removelast_firstn. lia.
Qed.

Lemma filter_nonempty_all (xs : list str) :
  forallb nonempty xs = true -> filter nonempty xs = xs.
Proof.
  induction xs as [|x xs IH]; [reflexivity|].
  cbn [forallb filter]. intros H. apply andb_prop in H as [-> H].
  rewrite (IH H). reflexivity.
Qed.

Lemma is_name_facts xs :
  forallb is_name xs = true ->
  forallb nonempty xs = true /\
  forallb (fun s => negb (char_in s slash)) xs = true /\
  forallb (fun s => negb (is_dot s)) xs = true.
Proof.
  induction xs as [|x xs IH]; [auto|].
  cbn [forallb]. intros H. apply andb_prop in H as [Hx H].
  destruct (IH H) as (H1 & H2 & H3). rewrite H1, H2, H3.
  unfold is_name in Hx. apply andb_prop in Hx as [Hx Hd].
  apply andb_prop in Hx as [Hn Hs]. rewrite Hn, Hs, Hd. auto.
Qed.

Lemma is_dot_facts xs :
  forallb is_dot xs = true ->
  forallb nonempty xs = true /\
  forallb (fun s => negb (char_in s slash)) xs = true.
Proof.
  induction xs as [|x xs IH]; [auto|].
  cbn [forallb]. intros H. apply andb_prop in H as [Hx H].
  destruct (IH H) as (H1 & H2). rewrite H1, H2.
  unfold is_dot, str_in in Hx. cbn [existsb] in Hx.
  rewrite orb_false_r in Hx. apply orb_prop in Hx as [Hx|Hx];
    apply str_eqb_eq in Hx; subst x; auto.
Qed.

(** The segments of the base path that take part in the join. *)
Lemma base_parts_of (dirs : list str) (file : str) :
  forallb is_name dirs = true -> char_in file slash = false ->
  let base_parts := split slash (path_of dirs file) in
  exists extra : list str,
    (if nonempty (last base_parts []) then removelast base_parts
     else base_parts) = ([] :: dirs) ++ extra /\
    filter nonempty extra = [].
Proof.
  intros Hd Hf. destruct (is_name_facts _ Hd) as (_ & Hs & _).
  assert (Hsplit : split slash (path_of dirs file) = [] :: dirs ++ [file]).
  { unfold path_of. change (lit "/" ++ ?x) with (slash :: x).
    cbn [split]. rewrite N.eqb_refl. f_equal. apply split_join.
    - destruct dirs; discriminate.
    - rewrite forallb_app, Hs. cbn [forallb]. rewrite Hf. reflexivity. }
  cbn zeta. rewrite Hsplit.
  change ([] :: dirs ++ [file]) with (([] :: dirs) ++ [file]).
  rewrite last_last, removelast_last.
  destruct file as [|c file]; cbn [nonempty].
  - exists [[]]. split; reflexivity.
  - exists []. rewrite app_nil_r. split; reflexivity.
Qed.

Lemma drop_inner_empty_segments (first : str) (mid : list str) (leaf : str) :
  drop_inner_empty (first :: mid ++ [leaf])
  = first :: filter nonempty mid ++ [leaf].
Proof.
  unfold drop_inner_empty.
  destruct (mid ++ [leaf]) as [|x r] eqn:E;
    [destruct mid; discriminate|].
  rewrite <- E, removelast_last, last_last. reflexivity.
Qed.

Lemma join_cons_nil xs :
  xs <> [] -> join (lit "/") ([] :: xs) = lit "/" ++ join (lit "/") xs.
Proof. destruct xs; [contradiction|reflexivity]. Qed.

(** The path computed by the last branch of [urljoin] for a reference made
    of dot segments, names and a leaf. *)
Lemma relative_segments
    (base_parts extra dirs dots names : list str) (leaf : str) :
  base_parts = ([] :: dirs) ++ extra ->
  filter nonempty extra = [] ->
  forallb is_name dirs = true ->
  forallb is_dot dots = true ->
  forallb is_name names = true ->
  char_in leaf slash = false -> is_dot leaf = false ->
  ups dots <= length dirs ->
  let segments :=
    drop_inner_empty
      (base_parts ++ split slash (join (lit "/") (dots ++ names ++ [leaf]))) in
  join (lit "/") (resolve_segments segments []) =
  path_of (firstn (length dirs - ups dots) dirs ++ names) leaf /\
  str_in [lit "."; lit ".."] (last segments []) = false.
Proof.
  intros -> Hextra Hdirs Hdots Hnames Hleaf Hnd Hups.
  destruct (is_name_facts _ Hdirs) as (Hd1 & _ & Hd3).
  destruct (is_name_facts _ Hnames) as (Hn1 & Hn2 & Hn3).
  destruct (is_dot_facts _ Hdots) as (Ho1 & Ho2).
  rewrite split_join.
  2: { destruct dots; [destruct names|]; discriminate. }
  2: { rewrite !forallb_app, Ho2, Hn2. cbn [forallb]. rewrite Hleaf.
       reflexivity. }
  cbn zeta. cbn [app]. rewrite !app_assoc.
  rewrite drop_inner_empty_segments.
  rewrite !filter_app. unfold str in *.
  rewrite Hextra, app_nil_r, !filter_nonempty_all by assumption.
  rewrite <- !app_assoc, app_comm_cons.
  split.
  - rewrite resolve_segments_app, resolve_segments_app.
    rewrite (resolve_segments_names ([] :: dirs)).
    2: { cbn [forallb]. apply andb_true_intro. split; [reflexivity|exact Hd3]. }
    rewrite (resolve_segments_dots _ _ Hdots), removelast_iter.
    rewrite resolve_segments_names.
    2: { rewrite forallb_app. apply andb_true_intro. split; [exact Hn3|].
         cbn [forallb]. apply andb_true_intro.
         split; [apply negb_true_iff; exact Hnd|reflexivity]. }
    cbn [app length]. 
    rewrite Nat.sub_succ_l by exact Hups.
    cbn [firstn app]. rewrite join_cons_nil.
    + unfold path_of. rewrite <- app_assoc. reflexivity.
    + intros H. apply app_eq_nil in H as [_ H].
      apply app_eq_nil in H as [_ H]. discriminate.
  - rewrite !app_assoc, last_last. exact Hnd.
Qed.

Lemma base_parts_of_path (dirs : list str) (file p : str) :
  p = path_of dirs file \/ (p = [] /\ dirs = []) ->
  forallb is_name dirs = true -> char_in file slash = false ->
  exists extra : list str,
    (if nonempty (last (split slash p) []) then removelast (split slash p)
     else split slash p) = ([] :: dirs) ++ extra /\
    filter nonempty extra = [].
Proof.
  intros [-> | [-> ->]] Hd Hf.
  - apply (base_parts_of dirs file Hd Hf).
  - exists []. split; reflexivity.
Qed.

Lemma join_head_not_slash (segs : list str) :
  forallb (fun s => negb (char_in s slash)) segs = true ->
  join (lit "/") segs <> [] ->
  match segs with
  | [] :: _ :: _ => False
  | _ => True
  end ->
  str_eqb (firstn 1 (join (lit "/") segs)) (lit "/") = false.
Proof.
  destruct segs as [|[|c s] rest]; intros Hs Hne Hhd.
  - contradiction Hne; reflexivity.
  - destruct rest; [contradiction Hne; reflexivity|contradiction].
  - cbn [forallb] in Hs. apply andb_prop in Hs as [Hc _].
    apply negb_true_iff in Hc. unfold char_in in Hc. cbn [existsb] in Hc.
    apply orb_false_elim in Hc as [Hc _]. rewrite N.eqb_sym in Hc.
    change (lit "/") with [slash].
    destruct rest; cbn [join app firstn str_eqb]; rewrite Hc; reflexivity.
Qed.

Lemma urljoin_relative_path
    L (base href : str) b u (dirs : list str) (file : str)
    (dots names : list str) (leaf : str) :
  base <> [] -> href <> [] ->
  urlparse L base [] = Return b ->
  urlparse L href (scheme b) = Return u ->
  str_eqb (scheme u) (scheme b) = true ->
  str_in uses_relative (scheme u) = true ->
  str_in uses_netloc (scheme u) = true ->
  netloc u = [] ->
  path b = path_of dirs file \/ (path b = [] /\ dirs = []) ->
  forallb is_name dirs = true -> char_in file slash = false ->
  path u = join (lit "/") (dots ++ names ++ [leaf]) -> path u <> [] ->
  forallb is_dot dots = true -> forallb is_name names = true ->
  char_in leaf slash = false -> is_dot leaf = false ->
  ups dots <= length dirs ->
  urljoin L base href =
  Return (urlunparse (scheme u) (netloc b)
            (path_of (firstn (length dirs - ups dots) dirs ++ names) leaf)
            (params u) (query u) (fragment u)).
Proof.
  intros Hbase Hhref Hb Hu Hsame Hrel Hnet Hnl Hpb Hdirs Hfile Hpu Hpne
         Hdots Hnames Hleaf Hnd Hups.
  unfold urljoin.
  rewrite (nonempty_true _ Hbase), (nonempty_true _ Hhref). cbn [negb].
  rewrite Hb. cbn [bind]. rewrite Hu. cbn [bind].
  rewrite Hsame, Hrel, Hnet, Hnl. cbn [negb orb andb nonempty].
  rewrite (nonempty_true _ Hpne). cbn [negb andb].
  assert (Hfirst : str_eqb (firstn 1 (path u)) (lit "/") = false).
  { rewrite Hpu in Hpne |- *.
    destruct (is_name_facts _ Hnames) as (Hn1 & Hn2 & _).
    destruct (is_dot_facts _ Hdots) as (Ho1 & Ho2).
    apply join_head_not_slash; [|exact Hpne|].
    - rewrite !forallb_app, Ho2, Hn2. cbn [forallb]. rewrite Hleaf.
      reflexivity.
    - destruct dots as [|[|c d] dots]; [|discriminate|exact I].
      destruct names as [|[|c n] names]; [|discriminate|exact I].
      destruct leaf; exact I. }
  rewrite Hfirst.
  destruct (base_parts_of_path dirs file (path b) Hpb Hdirs Hfile)
    as (extra & Hparts & Hextra).
  rewrite Hpu.
  destruct (relative_segments _ extra dirs dots names leaf Hparts Hextra
              Hdirs Hdots Hnames Hleaf Hnd Hups) as [Hj Hl].
  cbn zeta in Hj, Hl. rewrite Hl, Hj. reflexivity.
Qed.

Lemma urljoin_absolute_path
    L (base href : str) b u (names : list str) (leaf : str) :
  base <> [] -> href <> [] ->
  urlparse L base [] = Return b ->
  urlparse L href (scheme b) = Return u ->
  str_eqb (scheme u) (scheme b) = true ->
  str_in uses_relative (scheme u) = true ->
  str_in uses_netloc (scheme u) = true ->
  netloc u = [] ->
  path u = path_of names leaf ->
  forallb is_name names = true ->
  char_in leaf slash = false -> is_dot leaf = false ->
  urljoin L base href =
  Return (urlunparse (scheme u) (netloc b) (path u)
            (params u) (query u) (fragment u)).
Proof.
  intros Hbase Hhref Hb Hu Hsame Hrel Hnet Hnl Hpu Hnames Hleaf Hnd.
  destruct (is_name_facts _ Hnames) as (_ & Hn2 & Hn3).
  unfold urljoin.
  rewrite (nonempty_true _ Hbase), (nonempty_true _ Hhref). cbn [negb].
  rewrite Hb. cbn [bind]. rewrite Hu. cbn [bind].
  rewrite Hsame, Hrel, Hnet, Hnl. cbn [negb orb andb nonempty].
  rewrite Hpu. unfold path_of.
  change (lit "/" ++ join (lit "/") (names ++ [leaf]))
    with (slash :: join (lit "/") (names ++ [leaf])).
  cbn [nonempty negb andb firstn]. 
  change (str_eqb [slash] (lit "/")) with true. cbv iota.
  cbn [split]. rewrite N.eqb_refl, split_join.
  2: { destruct names; discriminate. }
  2: { rewrite forallb_app, Hn2. cbn [forallb]. rewrite Hleaf. reflexivity. }
  rewrite app_comm_cons, last_last.
  pose proof Hnd as Hnd'. unfold is_dot in Hnd'. rewrite Hnd'.
  rewrite (resolve_segments_names _ []).
  2: { cbn [app forallb]. apply andb_true_intro. split; [reflexivity|].
       rewrite forallb_app.
       apply andb_true_intro. split; [exact Hn3|].
       cbn [forallb]. apply andb_true_intro.
       split; [apply negb_true_iff; exact Hnd|reflexivity]. }
  cbn [app]. rewrite join_cons_nil by (destruct names; discriminate).
  reflexivity.
Qed.

Lemma unreserved_range c :
  unreserved c = true ->
  (45 <= c <= 126)%N /\ c <> 47%N /\ c <> 58%N /\ c <> 59%N /\ c <> 63%N /\
  c <> 91%N /\ c <> 93%N.
Proof.
  unfold unreserved, is_lower_ascii, is_upper_ascii, is_digit.
  intros H.
  repeat match type of H with
         | (_ || _) = true => apply orb_prop in H as [H|H]
         end;
  repeat match goal with
         | H : (_ && _) = true |- _ => apply andb_prop in H as [? H]
         | H : (_ <=? _)%N = true |- _ => apply N.leb_le in H
         | H : (_ =? _)%N = true |- _ => apply N.eqb_eq in H
         end; lia.
Qed.

Lemma path_char_range c :
  path_char c = true ->
  (45 <= c <= 126)%N /\ c <> 58%N /\ c <> 59%N /\ c <> 63%N /\
  c <> 91%N /\ c <> 93%N.
Proof.
  unfold path_char. intros H. apply orb_prop in H as [H|H].
  - apply unreserved_range in H. lia.
  - apply N.eqb_eq in H. unfold slash in H. lia.
Qed.

Lemma forallb_weaken (p q : N -> bool) (s : str) :
  (forall c, p c = true -> q c = true) ->
  forallb p s = true -> forallb q s = true.
Proof.
  intros Hpq. induction s as [|c s IH]; [reflexivity|].
  cbn [forallb]. intros H. apply andb_prop in H as [Hc H].
  rewrite (Hpq c Hc), (IH H). reflexivity.
Qed.

Lemma find_none (q : N -> bool) d (s : str) :
  (forall c, q c = true -> c <> d) ->
  forallb q s = true -> find d s = None.
Proof.
  intros Hq. induction s as [|c s IH]; [reflexivity|].
  cbn [forallb find]. intros H. apply andb_prop in H as [Hc H].
  rewrite (IH H). apply Hq, N.eqb_neq in Hc. rewrite Hc. reflexivity.
Qed.

Lemma char_in_none (q : N -> bool) d (s : str) :
  (forall c, q c = true -> c <> d) ->
  forallb q s = true -> char_in s d = false.
Proof.
  intros Hq. unfold char_in. induction s as [|c s IH]; [reflexivity|].
  cbn [forallb existsb]. intros H. apply andb_prop in H as [Hc H].
  rewrite (IH H). apply Hq in Hc. apply not_eq_sym, N.eqb_neq in Hc.
  rewrite Hc. reflexivity.
Qed.

Lemma remove_chars_none (q : N -> bool) p (s : str) :
  (forall c, q c = true -> p c = false) ->
  forallb q s = true -> remove_chars p s = s.
Proof.
  intros Hq. unfold remove_chars. induction s as [|c s IH]; [reflexivity|].
  cbn [forallb filter]. intros H. apply andb_prop in H as [Hc H].
  rewrite (Hq c Hc), (IH H). reflexivity.
Qed.

Lemma lstrip_none (q : N -> bool) p (s : str) :
  (forall c, q c = true -> p c = false) ->
  forallb q s = true -> lstrip p s = s.
Proof.
  intros Hq. unfold lstrip. destruct s as [|c s]; [reflexivity|].
  cbn [forallb dropwhile]. intros H. apply andb_prop in H as [Hc _].
  rewrite (Hq c Hc). reflexivity.
Qed.

Lemma path_char_not_control c :
  path_char c = true -> c0_control_or_space c = false.
Proof.
  intros H. apply path_char_range in H. unfold c0_control_or_space.
  apply N.leb_gt. lia.
Qed.

Lemma path_char_not_unsafe c :
  path_char c = true -> unsafe_url_byte c = false.
Proof.
  intros H. apply path_char_range in H. unfold unsafe_url_byte, char_in.
  cbn [existsb]. rewrite !orb_false_iff. repeat split;
    try (apply N.eqb_neq; lia).
Qed.

(** A text of path characters that does not start with two slashes is
    parsed as a path, with the scheme given as default. *)
Lemma urlparse_path L (s : str) :
  forallb path_char s = true ->
  str_eqb (firstn 2 s) (lit "//") = false ->
  urlparse L s (lit "https") =
  Return {| scheme := lit "https"; netloc := []; path := s; params := [];
            query := []; fragment := [] |}.
Proof.
  intros Hs H2. unfold urlparse, urlsplit.
  rewrite (lstrip_none path_char _ s path_char_not_control Hs).
  rewrite (remove_chars_none path_char _ s path_char_not_unsafe Hs).
  rewrite (find_none path_char 58 s) by
    (exact Hs || (intros c Hc; apply path_char_range in Hc; lia)).
  rewrite H2.
  replace (remove_chars unsafe_url_byte
             (strip_chars c0_control_or_space (lit "https")))
    with (lit "https") by (vm_compute; reflexivity).
  cbn [char_in existsb andb orb negb].
  unfold partition.
  rewrite (find_none path_char 35 s) by
    (exact Hs || (intros c Hc; apply path_char_range in Hc; lia)).
  rewrite (find_none path_char 63 s) by
    (exact Hs || (intros c Hc; apply path_char_range in Hc; lia)).
  unfold checknetloc. cbn [nonempty negb orb bind].
  cbn [s_scheme s_path s_netloc s_query s_fragment].
  rewrite (char_in_none path_char 59 s) by
    (exact Hs || (intros c Hc; apply path_char_range in Hc; lia)).
  rewrite andb_false_r. reflexivity.
Qed.

Lemma unreserved_path_char c : unreserved c = true -> path_char c = true.
Proof. unfold path_char. intros ->. reflexivity. Qed.

Lemma dropwhile_stop (q : N -> bool) (a b : str) :
  forallb q a = true ->
  match b with [] => true | c :: _ => negb (q c) end = true ->
  dropwhile q (a ++ b) = b.
Proof.
  induction a as [|x a IH]; intros Ha Hb.
  - destruct b as [|c b]; [reflexivity|]. cbn [app dropwhile].
    apply negb_true_iff in Hb. rewrite Hb. reflexivity.
  - cbn [forallb] in Ha. apply andb_prop in Ha as [Hx Ha].
    cbn [app dropwhile]. rewrite Hx. apply IH; assumption.
Qed.

(** An https URL with a host of unreserved characters and a path that is
    empty or starts with a slash is parsed into these three parts. *)
Lemma urlparse_https L (host p : str) :
  word host = true -> forallb path_char p = true ->
  match p with [] => true | c :: _ => N.eqb c slash end = true ->
  urlparse L (lit "https://" ++ host ++ p) [] =
  Return {| scheme := lit "https"; netloc := host; path := p; params := [];
            query := []; fragment := [] |}.
Proof.
  intros Hh Hp Hp0.
  assert (Hhp : forallb path_char host = true)
    by (apply (forallb_weaken unreserved); [exact unreserved_path_char|exact Hh]).
  assert (Hall : forallb (fun c => path_char c || N.eqb c 58)
                         (lit "https://" ++ host ++ p) = true).
  { rewrite !forallb_app. apply andb_true_intro. split; [reflexivity|].
    apply andb_true_intro.
    split; apply (forallb_weaken path_char); try assumption;
      intros c ->; reflexivity. }
  unfold urlparse, urlsplit.
  rewrite (lstrip_none (fun c => path_char c || N.eqb c 58) _ _) by
    (exact Hall ||
     (intros c Hc; apply orb_prop in Hc as [Hc|Hc];
      [apply path_char_not_control; exact Hc
      |apply N.eqb_eq in Hc; subst c; reflexivity])).
  rewrite (remove_chars_none (fun c => path_char c || N.eqb c 58) _ _) by
    (exact Hall ||
     (intros c Hc; apply orb_prop in Hc as [Hc|Hc];
      [apply path_char_not_unsafe; exact Hc
      |apply N.eqb_eq in Hc; subst c; reflexivity])).
  change (lit "https://" ++ host ++ p)
    with (104 :: 116 :: 116 :: 112 :: 115 :: 58 :: 47 :: 47 :: host ++ p)%N.
  cbn [find N.eqb Pos.eqb option_map firstn skipn].
  replace (is_ascii_alpha 104
           && forallb scheme_char [104; 116; 116; 112; 115]%N) with true
    by reflexivity.
  replace (lower L [104; 116; 116; 112; 115]%N) with (lit "https")
    by reflexivity.
  cbv iota beta.
  replace (str_eqb (47 :: 47 :: nil)%N (lit "//")) with true by reflexivity.
  unfold splitnetloc. cbn [skipn].
  rewrite (dropwhile_stop (Re.other_than (lit "/?#")) host p).
  2: { apply (forallb_weaken unreserved); [|exact Hh].
       intros c Hc. apply unreserved_range in Hc.
       unfold Re.other_than, char_in.
       change (lit "/?#") with [47; 63; 35]%N. cbn [existsb].
       apply negb_true_iff. rewrite !orb_false_iff.
       repeat split; try (apply N.eqb_neq; cbn; lia). }
  2: { destruct p as [|c p]; [reflexivity|]. apply N.eqb_eq in Hp0. subst c.
       reflexivity. }
  rewrite firstn_matched.
  rewrite (char_in_none unreserved 91 host) by
    (exact Hh || (intros c Hc; apply unreserved_range in Hc; lia)).
  rewrite (char_in_none unreserved 93 host) by
    (exact Hh || (intros c Hc; apply unreserved_range in Hc; lia)).
  cbn [andb orb negb]. unfold partition.
  rewrite (find_none path_char 35 p) by
    (exact Hp || (intros c Hc; apply path_char_range in Hc; lia)).
  rewrite (find_none path_char 63 p) by
    (exact Hp || (intros c Hc; apply path_char_range in Hc; lia)).
  assert (Hascii : isascii host = true).
  { apply (forallb_weaken unreserved); [|exact Hh].
    intros c Hc. apply unreserved_range in Hc. apply N.ltb_lt. lia. }
  unfold checknetloc. rewrite Hascii, orb_true_r. cbn [negb bind].
  cbn [s_scheme s_path s_netloc s_query s_fragment].
  rewrite (char_in_none path_char 59 p) by
    (exact Hp || (intros c Hc; apply path_char_range in Hc; lia)).
  rewrite andb_false_r. reflexivity.
Qed.

Lemma join_path_chars (segs : list str) :
  forallb word segs = true -> forallb path_char (join (lit "/") segs) = true.
Proof.
  induction segs as [|p [|q ps] IH]; [reflexivity| |].
  - cbn [forallb join]. rewrite andb_true_r.
    apply forallb_weaken, unreserved_path_char.
  - intros H. cbn [forallb] in H. apply andb_prop in H as [Hp H].
    change (join (lit "/") (p :: q :: ps))
      with (p ++ slash :: join (lit "/") (q :: ps)).
    rewrite forallb_app. apply andb_true_intro. split.
    + apply (forallb_weaken unreserved); [exact unreserved_path_char|exact Hp].
    + cbn [forallb]. apply andb_true_intro. split; [reflexivity|].
      apply IH. exact H.
Qed.

Lemma word_no_slash (s : str) : word s = true -> char_in s slash = false.
Proof.
  apply char_in_none. intros c Hc. apply unreserved_range in Hc.
  unfold slash. lia.
Qed.

Lemma is_dot_word (ds : list str) :
  forallb is_dot ds = true -> forallb word ds = true.
Proof.
  induction ds as [|d ds IH]; [reflexivity|].
  cbn [forallb]. intros H. apply andb_prop in H as [Hd H].
  rewrite (IH H), andb_true_r.
  unfold is_dot, str_in in Hd. cbn [existsb] in Hd.
  rewrite orb_false_r in Hd. apply orb_prop in Hd as [Hd|Hd];
    apply str_eqb_eq in Hd; subst d; reflexivity.
Qed.

Lemma not_two_slashes (s : str) :
  str_eqb (firstn 1 s) (lit "/") = false ->
  str_eqb (firstn 2 s) (lit "//") = false.
Proof.
  change (lit "/") with [slash]. change (lit "//") with [slash; slash].
  destruct s as [|c [|d s]]; try reflexivity; cbn [firstn str_eqb];
    rewrite !andb_true_r; intros ->; reflexivity.
Qed.

(** The join of a relative path to an https base URL, both written out:
    the directories of the base path less one for each [..], then the names
    and the last segment of the reference. *)
Lemma urljoin_https_relative
    L (host : str) (dirs : list str) (file : str) (dots names : list str)
    (leaf : str) :
  host <> [] -> word host = true ->
  forallb is_name dirs = true -> forallb word dirs = true ->
  word file = true ->
  forallb is_dot dots = true ->
  forallb is_name names = true -> forallb word names = true ->
  word leaf = true -> is_dot leaf = false ->
  dots ++ names <> [] \/ leaf <> [] ->
  ups dots <= length dirs ->
  urljoin L (lit "https://" ++ host ++ path_of dirs file)
    (join (lit "/") (dots ++ names ++ [leaf])) =
  Return (lit "https://" ++ host
          ++ path_of (firstn (length dirs - ups dots) dirs ++ names) leaf).
Proof.
  intros Hhost Hh Hdirs Hwd Hfile Hdots Hnames Hwn Hleaf Hnd Hne Hups.
  set (href := join (lit "/") (dots ++ names ++ [leaf])).
  assert (Hwords : forallb word (dots ++ names ++ [leaf]) = true).
  { rewrite !forallb_app, (is_dot_word _ Hdots), Hwn. cbn [forallb].
    rewrite Hleaf. reflexivity. }
  assert (Hhref : href <> []).
  { unfold href. destruct Hne as [Hne|Hne].
    - destruct dots as [|d dots].
      + destruct names as [|n names]; [contradiction Hne; reflexivity|].
        cbn [forallb] in Hnames. apply andb_prop in Hnames as [Hn _].
        unfold is_name in Hn. destruct n; [discriminate|].
        cbn [app]. destruct (names ++ [leaf]); discriminate.
      + cbn [forallb] in Hdots. apply andb_prop in Hdots as [Hd _].
        destruct d; [discriminate|].
        cbn [app]. destruct (dots ++ names ++ [leaf]); discriminate.
    - destruct dots as [|[|c d] dots];
        [|cbn [forallb] in Hdots; discriminate
         |cbn [app]; destruct (dots ++ names ++ [leaf]); discriminate].
      destruct names as [|[|c n] names];
        [|cbn [forallb] in Hnames; discriminate
         |cbn [app]; destruct (names ++ [leaf]); discriminate].
      cbn [app join]. exact Hne. }
  assert (Hslash : forallb (fun s => negb (char_in s slash))
                     (dots ++ names ++ [leaf]) = true).
  { clear - Hwords. induction (dots ++ names ++ [leaf]) as [|s l IH];
      [reflexivity|].
    cbn [forallb] in *. apply andb_prop in Hwords as [Hs Hl].
    rewrite (word_no_slash _ Hs), (IH Hl). reflexivity. }
  assert (H1 : str_eqb (firstn 1 href) (lit "/") = false).
  { apply join_head_not_slash; [exact Hslash|exact Hhref|].
    destruct dots as [|[|c d] dots];
      [|cbn [forallb] in Hdots; discriminate|exact I].
    destruct names as [|[|c n] names];
      [|cbn [forallb] in Hnames; discriminate|exact I].
    destruct leaf; exact I. }
  pose proof (urlparse_https L host (path_of dirs file) Hh) as Hb.
  rewrite (urljoin_relative_path L _ href
             {| scheme := lit "https"; netloc := host;
                path := path_of dirs file; params := []; query := [];
                fragment := [] |}
             {| scheme := lit "https"; netloc := []; path := href;
                params := []; query := []; fragment := [] |}
             dirs file dots names leaf); try assumption;
    try reflexivity.
  - unfold urlunparse, urlunsplit. cbn [nonempty scheme netloc params query
      fragment]. rewrite (nonempty_true _ Hhost). cbn [orb].
    unfold path_of. change (lit "/" ++ ?x) with (slash :: x).
    cbn [nonempty firstn andb negb].
    change (str_eqb [slash] (lit "/")) with true. cbn [negb]. reflexivity.
  - destruct host; [contradiction|discriminate].
  - apply Hb; [|reflexivity].
    unfold path_of. change (lit "/" ++ ?x) with (slash :: x).
    cbn [forallb]. apply join_path_chars.
    rewrite forallb_app, Hwd. cbn [forallb]. rewrite Hfile. reflexivity.
  - cbn [scheme]. apply urlparse_path; [|apply not_two_slashes; exact H1].
    apply join_path_chars. exact Hwords.
  - left. reflexivity.
  - apply word_no_slash. exact Hfile.
  - apply word_no_slash. exact Hleaf.
Qed.

(** C4, as amended: for a base URL that parses, [urljoin] returns unchanged
    an href whose scheme differs from the base's or does not support
    relative references; an href with the base's scheme and an authority of
    its own is put together again from its parsed components, which leaves
    [https://cdn.example.org/rt.tar.gz] unchanged for every such base; an
    href without scheme and authority whose path is made of dot segments,
    then names, then a last segment is joined to the directories of the
    base path, each [..] removing one directory and each [.] none, and gets
    the scheme and the authority of the base; an href without scheme and
    authority whose path starts with a slash and is made of names keeps its
    path and gets the scheme and the authority of the base; written out for
    an https base URL and texts of unreserved characters, the join of such
    a relative path is the base URL up to its directories, less one for
    each [..], followed by the names and the last segment of the href;
    [musl/x86_64.tar.gz] joined to [https://example.org/downloads/] is
    [https://example.org/downloads/musl/x86_64.tar.gz], as the href of the
    scenario page is joined to its base. *)
Theorem urljoin_absolute_and_relative L base b :
  urlparse L base [] = Return b ->
  (forall href u,
     base <> [] -> href <> [] ->
     urlparse L href (scheme b) = Return u ->
     str_eqb (scheme u) (scheme b) = false \/
     str_in uses_relative (scheme u) = false ->
     urljoin L base href = Return href) /\
  (forall href u,
     base <> [] -> href <> [] ->
     urlparse L href (scheme b) = Return u ->
     str_eqb (scheme u) (scheme b) = true ->
     str_in uses_relative (scheme u) = true ->
     str_in uses_netloc (scheme u) = true ->
     netloc u <> [] ->
     urljoin L base href =
     Return (urlunparse (scheme u) (netloc u) (path u) (params u) (query u)
                        (fragment u))) /\
  (forall href u dirs file dots names leaf,
     base <> [] -> href <> [] ->
     urlparse L href (scheme b) = Return u ->
     str_eqb (scheme u) (scheme b) = true ->
     str_in uses_relative (scheme u) = true ->
     str_in uses_netloc (scheme u) = true ->
     netloc u = [] ->
     path b = path_of dirs file \/ (path b = [] /\ dirs = []) ->
     forallb is_name dirs = true -> char_in file slash = false ->
     path u = join (lit "/") (dots ++ names ++ [leaf]) -> path u <> [] ->
     forallb is_dot dots = true -> forallb is_name names = true ->
     char_in leaf slash = false -> is_dot leaf = false ->
     ups dots <= length dirs ->
     urljoin L base href =
     Return (urlunparse (scheme b) (netloc b)
               (path_of (firstn (length dirs - ups dots) dirs ++ names) leaf)
               (params u) (query u) (fragment u))) /\
  (forall href u names leaf,
     base <> [] -> href <> [] ->
     urlparse L href (scheme b) = Return u ->
     str_eqb (scheme u) (scheme b) = true ->
     str_in uses_relative (scheme u) = true ->
     str_in uses_netloc (scheme u) = true ->
     netloc u = [] ->
     path u = path_of names leaf ->
     forallb is_name names = true ->
     char_in leaf slash = false -> is_dot leaf = false ->
     urljoin L base href =
     Return (urlunparse (scheme b) (netloc b) (path u)
               (params u) (query u) (fragment u))) /\
  (forall host dirs file dots names leaf,
     host <> [] -> word host = true ->
     forallb is_name dirs = true -> forallb word dirs = true ->
     word file = true ->
     forallb is_dot dots = true ->
     forallb is_name names = true -> forallb word names = true ->
     word leaf = true -> is_dot leaf = false ->
     dots ++ names <> [] \/ leaf <> [] ->
     ups dots <= length dirs ->
     urljoin L (lit "https://" ++ host ++ path_of dirs file)
       (join (lit "/") (dots ++ names ++ [leaf])) =
     Return (lit "https://" ++ host
             ++ path_of (firstn (length dirs - ups dots) dirs ++ names)
                  leaf)) /\
  urljoin L base (lit "https://cdn.example.org/rt.tar.gz")
  = Return (lit "https://cdn.example.org/rt.tar.gz") /\
  urljoin L (lit "https://example.org/downloads/") (lit "musl/x86_64.tar.gz")
  = Return (lit "https://example.org/downloads/musl/x86_64.tar.gz") /\
  resolve_musl_runtime_url L page_aarch64 example_base (lit "aarch64")
  = Return (lit "https://example.org/dl/runtime-aarch64.tar.gz").
Proof.
  intros Hb. split; [|split; [|split; [|split; [|split; [|split; [|split]]]]]].
  - intros href u Hbase Hhref Hu Hdiff. unfold urljoin.
    rewrite (nonempty_true _ Hbase), (nonempty_true _ Hhref). cbn [negb].
    rewrite Hb. cbn [bind]. rewrite Hu. cbn [bind].
    destruct Hdiff as [-> | ->]; [reflexivity|].
    cbn [negb]. rewrite orb_true_r. reflexivity.
  - intros href u Hbase Hhref Hu Hsame Hrel Hnet Hnl. unfold urljoin.
    rewrite (nonempty_true _ Hbase), (nonempty_true _ Hhref). cbn [negb].
    rewrite Hb. cbn [bind]. rewrite Hu. cbn [bind].
    rewrite Hsame, Hrel, Hnet, (nonempty_true _ Hnl). reflexivity.
  - intros href u dirs file dots names leaf Hbase Hhref Hu Hsame.
    intros Hrel Hnet Hnl Hpb Hdirs Hfile Hpu Hpne Hdots Hnames Hleaf Hnd Hups.
    apply str_eqb_eq in Hsame as Hsch. rewrite <- Hsch.
    apply (urljoin_relative_path L base href b u dirs file dots names leaf);
      assumption.
  - intros href u names leaf Hbase Hhref Hu Hsame.
    intros Hrel Hnet Hnl Hpu Hnames Hleaf Hnd.
    apply str_eqb_eq in Hsame as Hsch. rewrite <- Hsch.
    apply (urljoin_absolute_path L base href b u names leaf); assumption.
  - intros host dirs file dots names leaf. apply urljoin_https_relative.
  - unfold urljoin. destruct (nonempty base); cbn [negb]; [|reflexivity].
    replace (nonempty (lit "https://cdn.example.org/rt.tar.gz")) with true
      by reflexivity.
    cbn [negb]. rewrite Hb. cbn [bind]. rewrite urlparse_cdn. cbn [bind].
    cbn [scheme netloc path params query fragment].
    destruct (str_eqb (lit "https") (scheme b)); [|reflexivity].
    vm_compute. reflexivity.
  - vm_compute. reflexivity.
  - vm_compute. reflexivity.
Qed.

Lemma urljoin_absolute_and_relative_witness :
  urljoin ascii_lib (lit "https://example.org/downloads/")
    (lit "ftp://mirror.example.org/rt.tar.gz")
  = Return (lit "ftp://mirror.example.org/rt.tar.gz") /\
  urljoin ascii_lib (lit "https://example.org/downloads/")
    (lit "HTTPS://cdn.example.org/a/../rt.tar.gz?")
  = Return (lit "https://cdn.example.org/a/../rt.tar.gz") /\
  urljoin ascii_lib (lit "https://example.org/downloads/")
    (lit "./../rt/x86_64.tar.gz?v=2")
  = Return (lit "https://example.org/rt/x86_64.tar.gz?v=2") /\
  urljoin ascii_lib (lit "https://example.org/downloads/")
    (lit "/dl/runtime-aarch64.tar.gz")
  = Return (lit "https://example.org/dl/runtime-aarch64.tar.gz") /\
  urljoin ascii_lib
    (lit "https://" ++ lit "example.org"
     ++ path_of [lit "downloads"; lit "musl"] (lit "index.html"))
    (join (lit "/") ([lit ".."; lit "."] ++ [lit "glibc"]
                     ++ [lit "x86_64.tar.gz"]))
  = Return (lit "https://" ++ lit "example.org"
            ++ path_of ([lit "downloads"] ++ [lit "glibc"])
                 (lit "x86_64.tar.gz")).
Proof.
  destruct (urljoin_absolute_and_relative ascii_lib
              (lit "https://example.org/downloads/")
              {| scheme := lit "https"; netloc := lit "example.org";
                 path := lit "/downloads/"; params := []; query := [];
                 fragment := [] |})
    as (Hdiff & Hsame & Hrelative & Habsolute & Hhttps & _).
  - vm_compute; reflexivity.
  - split; [|split; [|split; [|split]]];
      [| | | |apply (Hhttps (lit "example.org")
                       [lit "downloads"; lit "musl"] (lit "index.html")
                       [lit ".."; lit "."] [lit "glibc"]
                       (lit "x86_64.tar.gz"));
              try (vm_compute; reflexivity);
              [discriminate|left; discriminate|vm_compute; lia]].
    + apply (Hdiff (lit "ftp://mirror.example.org/rt.tar.gz")
               {| scheme := lit "ftp"; netloc := lit "mirror.example.org";
                  path := lit "/rt.tar.gz"; params := []; query := [];
                  fragment := [] |}).
      * discriminate.
      * discriminate.
      * vm_compute; reflexivity.
      * left; vm_compute; reflexivity.
    + apply (Hsame (lit "HTTPS://cdn.example.org/a/../rt.tar.gz?")
               {| scheme := lit "https"; netloc := lit "cdn.example.org";
                  path := lit "/a/../rt.tar.gz"; params := []; query := [];
                  fragment := [] |}).
      * discriminate.
      * discriminate.
      * vm_compute; reflexivity.
      * vm_compute; reflexivity.
      * vm_compute; reflexivity.
      * vm_compute; reflexivity.
      * discriminate.
    + apply (Hrelative (lit "./../rt/x86_64.tar.gz?v=2")
               {| scheme := lit "https"; netloc := [];
                  path := lit "./../rt/x86_64.tar.gz"; params := [];
                  query := lit "v=2"; fragment := [] |}
               [lit "downloads"] [] [lit "."; lit ".."] [lit "rt"]
               (lit "x86_64.tar.gz")).
      * discriminate.
      * discriminate.
      * vm_compute; reflexivity.
      * vm_compute; reflexivity.
      * vm_compute; reflexivity.
      * vm_compute; reflexivity.
      * reflexivity.
      * left; vm_compute; reflexivity.
      * vm_compute; reflexivity.
      * vm_compute; reflexivity.
      * vm_compute; reflexivity.
      * discriminate.
      * vm_compute; reflexivity.
      * vm_compute; reflexivity.
      * vm_compute; reflexivity.
      * vm_compute; reflexivity.
      * vm_compute. lia.
    + apply (Habsolute (lit "/dl/runtime-aarch64.tar.gz")
               {| scheme := lit "https"; netloc := [];
                  path := lit "/dl/runtime-aarch64.tar.gz"; params := [];
                  query := []; fragment := [] |}
               [lit "dl"] (lit "runtime-aarch64.tar.gz")).
      * discriminate.
      * discriminate.
      * vm_compute; reflexivity.
      * vm_compute; reflexivity.
      * vm_compute; reflexivity.
      * vm_compute; reflexivity.
      * reflexivity.
      * vm_compute; reflexivity.
      * vm_compute; reflexivity.
      * vm_compute; reflexivity.
      * vm_compute; reflexivity.
Defined.

(** C4, as stated, fails: this href is absolute (it has a scheme), and
    joined to a base URL with the same scheme it comes back with its scheme
    in lower case, not unchanged. *)
Lemma absolute_href_is_reassembled :
  has_scheme ascii_lib (lit "HTTPS://cdn.example.org/rt.tar.gz") = true /\
  urljoin ascii_lib example_base (lit "HTTPS://cdn.example.org/rt.tar.gz")
  = Return (lit "https://cdn.example.org/rt.tar.gz") /\
  urljoin ascii_lib example_base (lit "HTTPS://cdn.example.org/rt.tar.gz")
  <> Return (lit "HTTPS://cdn.example.org/rt.tar.gz").
Proof.
  split; [vm_compute; reflexivity|].
  split; [vm_compute; reflexivity|].
  vm_compute. discriminate.
Qed.

(** ** The white-space steps of the normalizer *)

Lemma dropwhile_length p s : length (dropwhile p s) <= length s.
Proof.
  induction s as [|c s IH]; simpl; [lia|].
  destruct (p c); simpl; lia.
Qed.

(** A greedy repetition in front of a continuation that always succeeds
    takes the whole run. *)
Lemma rep_greedy_all {A} p (f : str -> A) s : forall lo,
  rep true p lo None s (fun s' => Some (f s')) =
  if lo <=? length s - length (dropwhile p s)
  then Some (f (dropwhile p s)) else None.
Proof.
  induction s as [|c s IH]; intros lo.
  - destruct lo; reflexivity.
  - cbn [rep dropwhile exhausted negb andb option_map].
    rewrite andb_true_r. destruct (p c) eqn:Hp.
    + rewrite IH. pose proof (dropwhile_length p s) as Hl.
      cbn [length].
      destruct (pred lo <=? length s - length (dropwhile p s)) eqn:Hle.
      * apply Nat.leb_le in Hle.
        replace (lo <=? S (length s) - length (dropwhile p s)) with true
          by (symmetry; apply Nat.leb_le; lia).
        reflexivity.
      * apply Nat.leb_gt in Hle.
        replace (lo <=? S (length s) - length (dropwhile p s)) with false
          by (symmetry; apply Nat.leb_gt; lia).
        destruct lo; [lia|reflexivity].
    + cbn [length]. rewrite Nat.sub_diag. destruct lo; reflexivity.
Qed.

Lemma match_at_ws s :
  match_at ws_re s =
  match s with
  | c :: s' => if is_space c then Some ([], dropwhile is_space s') else None
  | [] => None
  end.
Proof.
  unfold match_at, ws_re, plus. cbn [exec].
  rewrite (rep_greedy_all is_space (fun s' => (@nil str, s'))).
  destruct s as [|c s']; [reflexivity|].
  cbn [dropwhile length]. destruct (is_space c).
  - pose proof (dropwhile_length is_space s').
    replace (1 <=? S (length s') - length (dropwhile is_space s')) with true
      by (symmetry; apply Nat.leb_le; lia).
    reflexivity.
  - cbn [length]. rewrite Nat.sub_diag. reflexivity.
Qed.

Lemma scan_skip r s : forall k, scan r s k = scan r (skipn k s) 0.
Proof.
  induction s as [|c s IH]; intros [|k]; try reflexivity.
  cbn [scan skipn]. apply IH.
Qed.

Lemma skipn_run p s :
  skipn (length s - length (dropwhile p s)) s = dropwhile p s.
Proof.
  induction s as [|c s IH]; [reflexivity|].
  cbn [dropwhile]. destruct (p c).
  - pose proof (dropwhile_length p s).
    replace (length (c :: s) - length (dropwhile p s))
      with (S (length s - length (dropwhile p s))) by (cbn [length]; lia).
    exact IH.
  - rewrite Nat.sub_diag. reflexivity.
Qed.

Lemma sub_ws_cons repl c s :
  sub ws_re repl (c :: s) =
  if is_space c then repl ++ sub ws_re repl (dropwhile is_space s)
  else c :: sub ws_re repl s.
Proof.
  unfold sub. cbn [scan]. rewrite match_at_ws.
  destruct (is_space c); [|reflexivity].
  cbn [flat_map]. f_equal. rewrite scan_skip. f_equal. f_equal.
  pose proof (dropwhile_length is_space s).
  replace (length (c :: s) - length (dropwhile is_space s) - 1)
    with (length s - length (dropwhile is_space s)) by (cbn [length]; lia).
  apply skipn_run.
Qed.

Lemma squeeze_dropwhile s : squeeze false (dropwhile is_space s) = squeeze true s.
Proof.
  induction s as [|c s IH]; [reflexivity|].
  cbn [dropwhile squeeze]. destruct (is_space c) eqn:Hc; [exact IH|].
  cbn [squeeze]. rewrite Hc. reflexivity.
Qed.

Lemma sub_ws_squeeze s : sub ws_re (lit " ") s = squeeze false s.
Proof.
  remember (length s) as n eqn:Hn. revert s Hn.
  induction n as [n IH] using lt_wf_ind. intros [|c s] Hn; [reflexivity|].
  rewrite sub_ws_cons. cbn [squeeze]. destruct (is_space c).
  - rewrite (IH (length (dropwhile is_space s))); [|subst; cbn [length];
      pose proof (dropwhile_length is_space s); lia|reflexivity].
    rewrite squeeze_dropwhile. reflexivity.
  - f_equal. apply (IH (length s)); [subst; cbn [length]; lia|reflexivity].
Qed.

Lemma squeeze_tight s :
  tight true (squeeze true s) = true /\ tight false (squeeze false s) = true.
Proof.
  induction s as [|c s [IHt IHf]]; [split; reflexivity|].
  cbn [squeeze]. destruct (is_space c) eqn:Hc.
  - split; [exact IHt|]. cbn [tight]. 
    replace (is_space 32) with true by reflexivity.
    rewrite IHt. reflexivity.
  - cbn [tight]. rewrite Hc. split; exact IHf.
Qed.

Lemma tight_squeeze s : forall b, tight b s = true -> squeeze b s = s.
Proof.
  induction s as [|c s IH]; intros b H; [reflexivity|].
  cbn [tight squeeze] in *. destruct (is_space c).
  - apply andb_prop in H as [H Ht]. apply andb_prop in H as [Hc Hb].
    apply N.eqb_eq in Hc. destruct b; [discriminate|].
    subst c. f_equal. apply IH; exact Ht.
  - f_equal. apply IH; exact H.
Qed.

Lemma tight_weaken s : tight true s = true -> tight false s = true.
Proof.
  destruct s as [|c s]; [reflexivity|]. cbn [tight].
  destruct (is_space c); [|tauto].
  rewrite andb_false_r. discriminate.
Qed.

Lemma tight_dropwhile s : forall b,
  tight b s = true -> tight true (dropwhile is_space s) = true.
Proof.
  induction s as [|c s IH]; intros b H; [reflexivity|].
  cbn [tight dropwhile] in *. destruct (is_space c) eqn:Hc.
  - apply andb_prop in H as [_ Ht]. apply (IH true); exact Ht.
  - cbn [tight]. rewrite Hc. exact H.
Qed.

Lemma tight_no_leading s : tight true s = true -> dropwhile is_space s = s.
Proof.
  destruct s as [|c s]; [reflexivity|]. cbn [tight dropwhile].
  destruct (is_space c); [|reflexivity].
  rewrite andb_false_r. discriminate.
Qed.

Lemma tight_rstrip s : forall b,
  tight b s = true -> tight b (rstrip is_space s) = true.
Proof.
  induction s as [|c s IH]; intros b H; [reflexivity|].
  cbn [tight rstrip] in *. destruct (is_space c) eqn:Hc.
  - apply andb_prop in H as [H Ht]. apply IH in Ht.
    destruct (rstrip is_space s) as [|d r]; [reflexivity|].
    cbn [tight]. rewrite Hc, H. exact Ht.
  - apply IH in H.
    destruct (rstrip is_space s) as [|d r];
      cbn [tight]; rewrite Hc; [reflexivity|exact H].
Qed.

Lemma rstrip_idempotent p s : rstrip p (rstrip p s) = rstrip p s.
Proof.
  induction s as [|c s IH]; [reflexivity|].
  cbn [rstrip]. destruct (rstrip p s) as [|d r] eqn:Hr.
  - destruct (p c) eqn:Hc; [reflexivity|].
    cbn [rstrip]. rewrite Hc. reflexivity.
  - cbn [rstrip]. cbn [rstrip] in IH. rewrite IH. reflexivity.
Qed.

(** The white-space steps are idempotent. *)
Lemma collapsed_after_collapse u :
  collapsed (strip (sub ws_re (lit " ") u)).
Proof.
  unfold collapsed. repeat rewrite sub_ws_squeeze.
  unfold strip, strip_chars, lstrip.
  set (x := dropwhile is_space (squeeze false u)).
  assert (Hx : tight true x = true)
    by (apply (tight_dropwhile _ false), squeeze_tight).
  assert (Hy : tight true (rstrip is_space x) = true)
    by (apply tight_rstrip; exact Hx).
  rewrite (tight_squeeze _ false) by (apply tight_weaken; exact Hy).
  rewrite (tight_no_leading _ Hy). apply rstrip_idempotent.
Qed.

(** Lower-casing ASCII letters commutes with the white-space steps. *)
Lemma is_space_range c : is_space c = true -> (c <= 32 \/ 133 <= c)%N.
Proof.
  unfold is_space. intros H.
  repeat rewrite ?orb_true_iff, ?andb_true_iff, ?N.leb_le, ?N.eqb_eq in H.
  lia.
Qed.

Lemma is_space_tolower c : is_space (ascii_tolower c) = is_space c.
Proof.
  unfold ascii_tolower, is_upper_ascii.
  destruct ((65 <=? c) && (c <=? 90))%N eqn:H; [|reflexivity].
  apply andb_prop in H as [H1 H2].
  apply N.leb_le in H1. apply N.leb_le in H2.
  destruct (is_space (c + 32)) eqn:E1;
    [apply is_space_range in E1; lia|].
  destruct (is_space c) eqn:E2;
    [apply is_space_range in E2; lia|reflexivity].
Qed.

Lemma squeeze_map_tolower s : forall b,
  squeeze b (map ascii_tolower s) = map ascii_tolower (squeeze b s).
Proof.
  induction s as [|c s IH]; intros b; [reflexivity|].
  cbn [map squeeze]. rewrite is_space_tolower.
  destruct (is_space c); [destruct b|]; cbn [map]; rewrite IH; reflexivity.
Qed.

Lemma dropwhile_map_tolower s :
  dropwhile is_space (map ascii_tolower s)
  = map ascii_tolower (dropwhile is_space s).
Proof.
  induction s as [|c s IH]; [reflexivity|].
  cbn [map dropwhile]. rewrite is_space_tolower.
  destruct (is_space c); [exact IH|reflexivity].
Qed.

Lemma rstrip_map_tolower s :
  rstrip is_space (map ascii_tolower s)
  = map ascii_tolower (rstrip is_space s).
Proof.
  induction s as [|c s IH]; [reflexivity|].
  cbn [map rstrip]. rewrite IH, is_space_tolower.
  destruct (rstrip is_space s); cbn [map]; [|reflexivity].
  destruct (is_space c); reflexivity.
Qed.

Lemma collapsed_map_tolower t :
  collapsed t -> collapsed (map ascii_tolower t).
Proof.
  unfold collapsed. repeat rewrite sub_ws_squeeze.
  unfold strip, strip_chars, lstrip. intros H.
  rewrite squeeze_map_tolower, dropwhile_map_tolower, rstrip_map_tolower.
  rewrite H. reflexivity.
Qed.

(** ** Tags in a text without [<] *)

Lemma match_at_tag_other c s :
  N.eqb 60 c = false -> match_at tag_re (c :: s) = None.
Proof.
  intros H. unfold match_at, tag_re. cbn [cat exec chr]. rewrite H. reflexivity.
Qed.

Lemma sub_tag_without_lt repl s :
  char_in s 60%N = false -> sub tag_re repl s = s.
Proof.
  unfold sub, char_in. induction s as [|c s IH]; [reflexivity|].
  cbn [existsb]. intros H. apply orb_false_elim in H as [Hc Hs].
  cbn [scan]. rewrite match_at_tag_other by exact Hc.
  cbn [flat_map app]. f_equal. apply IH. exact Hs.
Qed.

(** ** Normalizing twice *)

(** C5, as amended: when lower-casing non-ASCII text is idempotent and keeps
    white-space-normalized text normalized (as the Unicode tables do), the
    normalizer gives back unchanged any of its results that contains neither
    [<] nor [&]: on such a result the second pass finds no tag and no
    character reference to replace. *)
Theorem normalize_text_idempotent_without_markup L s n :
  (forall t, isascii t = false ->
             lower L (unicode_lower L t) = unicode_lower L t) ->
  (forall t, isascii t = false -> collapsed t ->
             collapsed (unicode_lower L t)) ->
  normalize_text L s = Return n ->
  char_in n 60%N = false ->
  char_in n 38%N = false ->
  normalize_text L n = Return n.
Proof.
  intros Hidem Hws Hs Hlt Hamp.
  unfold normalize_text in Hs.
  destruct (Html.unescape L (sub tag_re (lit " ") s)) as [u|e] eqn:Hu;
    cbn [bind] in Hs; [|discriminate].
  pose proof (collapsed_after_collapse u) as Hc.
  set (t := strip (sub ws_re (lit " ") u)) in *.
  assert (Hn : n = lower L t) by congruence. clear Hs.
  assert (Hn' : collapsed n /\ lower L n = n).
  { subst n. destruct (isascii t) eqn:Ha.
    - split; [|apply lower_ascii_idempotent; exact Ha].
      unfold lower. rewrite Ha. apply collapsed_map_tolower; exact Hc.
    - unfold lower at 1 3 4. rewrite Ha. auto. }
  destruct Hn' as [Hcn Hln].
  unfold normalize_text.
  rewrite sub_tag_without_lt by exact Hlt.
  rewrite unescape_without_amp by exact Hamp.
  cbn [bind]. rewrite Hcn, Hln. reflexivity.
Qed.

Lemma normalize_text_idempotent_without_markup_witness :
  normalize_text ascii_lib (lit "<b>ARM64</b>   Runtime &#43; tools ")
  = Return (lit "arm64 runtime + tools") /\
  normalize_text ascii_lib (lit "arm64 runtime + tools")
  = Return (lit "arm64 runtime + tools").
Proof.
  assert (H : normalize_text ascii_lib (lit "<b>ARM64</b>   Runtime &#43; tools ")
              = Return (lit "arm64 runtime + tools"))
    by (vm_compute; reflexivity).
  split; [exact H|].
  apply (normalize_text_idempotent_without_markup ascii_lib
           (lit "<b>ARM64</b>   Runtime &#43; tools ")).
  - intros t Ht. unfold lower. cbn [unicode_lower ascii_lib]. rewrite Ht.
    reflexivity.
  - intros t _ Hc. exact Hc.
  - exact H.
  - vm_compute; reflexivity.
  - vm_compute; reflexivity.
Defined.

(** C5, as stated, fails: the two numeric references decode to [<] and [>],
    so the first pass yields the text [<b>], which the second pass takes for
    a tag and removes. *)
Lemma normalize_text_not_idempotent :
  normalize_text ascii_lib (lit "&#60;b&#62;") = Return (lit "<b>") /\
  normalize_text ascii_lib (lit "<b>") = Return [] /\
  (n <- normalize_text ascii_lib (lit "&#60;b&#62;") ;;
   normalize_text ascii_lib n)
  <> normalize_text ascii_lib (lit "&#60;b&#62;").
Proof.
  split; [vm_compute; reflexivity|].
  split; [vm_compute; reflexivity|].
  vm_compute. discriminate.
Qed.

(** ** The driver *)



(** C6, as amended: with the three inputs present and no qualifying anchor,
    the resolver itself raises [SystemExit] with status 1 (line 57); the
    driver prints nothing and exits with the status the resolver raised,
    whichever it is (lines 108 and 109 re-raise it unchanged). *)
Theorem not_found_is_system_exit L p html :
  html_source p = Some html ->
  truthy (home_url_source p) = true ->
  truthy (needle_arch_source p) = true ->
  Forall (fun a => qualifies L (lower L (value (needle_arch_source p))) a
                   = Return false)
         (findall2 anchor_re html) ->
  resolve_musl_runtime_url L html (value (home_url_source p))
    (value (needle_arch_source p)) = Raise (SystemExit 1) /\
  main L p = {| stdout := []; stderr := []; status := 1 |} /\
  forall resolver code,
    resolver html (value (home_url_source p)) (value (needle_arch_source p))
    = Raise (SystemExit code) ->
    main_with resolver p = {| stdout := []; stderr := []; status := code |}.
Proof.
  intros Hhtml Hhome Hneedle Hnone.
  assert (Hdrv : forall resolver code,
    resolver html (value (home_url_source p)) (value (needle_arch_source p))
    = Raise (SystemExit code) ->
    main_with resolver p = {| stdout := []; stderr := []; status := code |}).
  { intros resolver code Hr. unfold main_with.
    rewrite Hhtml, Hhome, Hneedle. simpl. rewrite Hr. reflexivity. }
  assert (Hres : resolve_musl_runtime_url L html (value (home_url_source p))
            (value (needle_arch_source p)) = Raise (SystemExit 1))
    by (unfold resolve_musl_runtime_url;
        apply search_anchors_not_found_iff; exact Hnone).
  split; [exact Hres|]. split; [|exact Hdrv].
  unfold main. apply Hdrv. exact Hres.
Qed.

Lemma not_found_is_system_exit_witness :
  main ascii_lib (process_with page_aarch64 example_base (lit "riscv64"))
  = {| stdout := []; stderr := []; status := 1 |}.
Proof.
  destruct (not_found_is_system_exit ascii_lib
              (process_with page_aarch64 example_base (lit "riscv64"))
              page_aarch64) as (_ & Hmain & _).
  - reflexivity.
  - reflexivity.
  - reflexivity.
  - replace (findall2 anchor_re page_aarch64)
      with [(lit "/dl/runtime-aarch64.tar.gz", lit "ARM64 Runtime")]
      by (vm_compute; reflexivity).
    constructor; [vm_compute; reflexivity|constructor].
  - exact Hmain.
Defined.

(** C6, as stated, fails: on a page without anchors the resolver does not
    return a no-result value but raises [SystemExit] with the exit status in
    it, and the driver passes on whatever status the resolver raised (here
    7), so the status is chosen in the resolver. *)
Lemma not_found_is_raised_in_resolver :
  resolve_musl_runtime_url ascii_lib (lit "<p>no links</p>") example_base
    (lit "x86_64") = Raise (SystemExit 1) /\
  status (main_with (fun _ _ _ => Raise (SystemExit 7))
            (process_with (lit "<p>no links</p>") example_base (lit "x86_64")))
  = 7%Z.
Proof. vm_compute. auto. Qed.

(** * Further properties of the script *)

(** ** How the matcher chooses among the possible matches *)

(** A literal under [re.IGNORECASE] passes over any text equal to it up to
    the case of ASCII letters. *)
Lemma exec_text_i_app {A} w : forall pat s caps (k : str -> list str -> option A),
  map ascii_tolower w = pat ->
  exec (text_i pat) (w ++ s) caps k = k s caps.
Proof.
  induction w as [|c w IH]; intros pat s caps k <-; [reflexivity|].
  unfold text_i. cbn [map cat exec chr_i app].
  rewrite N.eqb_refl. apply (IH (map ascii_tolower w)). reflexivity.
Qed.

Lemma exec_text_i_some {A} pat t caps (k : str -> list str -> option A) x :
  exec (text_i pat) t caps k = Some x ->
  exists w s', t = w ++ s' /\ map ascii_tolower w = pat /\ k s' caps = Some x.
Proof.
  intros H. apply exec_sound in H as (w & s' & c' & -> & D & Hk).
  apply derives_text_i in D as [Hw ->]. eauto.
Qed.

(** A greedy repetition stops at the end of the run when what follows the
    pattern matches there. *)
Lemma rep_greedy_longest {A} p w : forall lo s (k : str -> option A) x,
  forallb p w = true -> lo <= length w ->
  match s with [] => true | c :: _ => negb (p c) end = true ->
  k s = Some x ->
  rep true p lo None (w ++ s) k = Some x.
Proof.
  induction w as [|c w IH]; intros lo s k x Hw Hlo Hs Hk.
  - cbn [length] in Hlo. assert (lo = 0) by lia. subst lo.
    cbn [app]. destruct s as [|d s]; cbn [rep].
    + exact Hk.
    + apply negb_true_iff in Hs. rewrite Hs. cbn [andb]. exact Hk.
  - cbn [forallb] in Hw. apply andb_prop in Hw as [Hc Hw].
    cbn [app rep exhausted negb option_map]. rewrite Hc. cbn [andb].
    rewrite (IH (pred lo) s k x); auto. cbn [length] in Hlo. lia.
Qed.

(** A greedy repetition gives back all the characters of the run when what
    follows the pattern matches at no later position. *)
Lemma rep_greedy_give_back {A} p w : forall s (k : str -> option A),
  forallb p w = true ->
  match s with [] => true | c :: _ => negb (p c) end = true ->
  (forall j, 1 <= j <= length w -> k (skipn j w ++ s) = None) ->
  rep true p 0 None (w ++ s) k = k (w ++ s).
Proof.
  induction w as [|c w IH]; intros s k Hw Hs Hfail.
  - cbn [app]. destruct s as [|d s]; cbn [rep]; [reflexivity|].
    apply negb_true_iff in Hs. rewrite Hs. reflexivity.
  - cbn [forallb] in Hw. apply andb_prop in Hw as [Hc Hw].
    cbn [app rep exhausted negb option_map pred]. rewrite Hc. cbn [andb].
    rewrite IH; auto.
    + pose proof (Hfail 1) as H1. cbn [skipn length] in H1.
      rewrite H1; [reflexivity|lia].
    + intros j Hj. apply (Hfail (S j)). cbn [length]. lia.
Qed.

(** A lazy repetition stops at the first position where what follows the
    pattern matches. *)
Lemma rep_lazy_first {A} p s : forall (k : str -> option A) x,
  rep false p 0 None s k = Some x ->
  exists w s',
    s = w ++ s' /\ k s' = Some x /\
    forall w1 w2, w = w1 ++ w2 -> w2 <> [] -> k (w2 ++ s') = None.
Proof.
  induction s as [|c s IH]; intros k x H; cbn [rep] in H.
  - exists [], []. destruct (k []) eqn:Hk; [|discriminate].
    inversion H; subst. repeat split; auto.
    intros w1 w2 Hw. destruct w1; destruct w2; try discriminate. congruence.
  - destruct (k (c :: s)) eqn:Hk.
    + inversion H; subst. exists [], (c :: s). repeat split; auto.
      intros w1 w2 Hw. destruct w1; destruct w2; try discriminate. congruence.
    + destruct (p c && negb (exhausted None)); [|discriminate].
      cbn [pred option_map] in H.
      apply IH in H as (w & s' & -> & Hs' & Hfirst).
      exists (c :: w), s'. repeat split; auto.
      intros w1 w2 Hw Hne. destruct w1 as [|d w1].
      * cbn [app] in Hw. subst w2. exact Hk.
      * cbn [app] in Hw. inversion Hw; subst. apply (Hfirst w1 w2); auto.
Qed.

Lemma rep_lazy_skip {A} p w : forall s (k : str -> option A) x,
  forallb p w = true ->
  (forall w1 w2, w = w1 ++ w2 -> w2 <> [] -> k (w2 ++ s) = None) ->
  k s = Some x ->
  rep false p 0 None (w ++ s) k = Some x.
Proof.
  induction w as [|c w IH]; intros s k x Hw Hfail Hk.
  - cbn [app]. destruct s as [|d s]; cbn [rep]; rewrite Hk; reflexivity.
  - cbn [forallb] in Hw. apply andb_prop in Hw as [Hc Hw].
    cbn [app rep exhausted negb option_map pred].
    pose proof (Hfail [] (c :: w) eq_refl) as H0. cbn [app] in H0.
    rewrite H0 by discriminate.
    rewrite Hc. cbn [andb]. apply IH; auto.
    intros w1 w2 Heq Hne. apply (Hfail (c :: w1) w2); [|exact Hne].
    rewrite Heq. reflexivity.
Qed.

(** ** What an extracted anchor never contains *)

Lemma contains_split sub s :
  contains sub s = true ->
  exists s1 s2, s = s1 ++ s2 /\ startswith sub s2 = true.
Proof.
  induction s as [|c s IH]; cbn [contains].
  - rewrite orb_false_r. intros H. exists [], []. auto.
  - intros H. apply orb_prop in H as [H|H].
    + exists [], (c :: s). auto.
    + apply IH in H as (s1 & s2 & -> & H). exists (c :: s1), s2. auto.
Qed.

Lemma startswith_split p : forall s,
  startswith p s = true -> exists s', s = p ++ s'.
Proof.
  induction p as [|x p IH]; intros s H; [exists s; reflexivity|].
  destruct s as [|y s]; [discriminate|]. cbn [startswith] in H.
  apply andb_prop in H as [Hx H]. apply N.eqb_eq in Hx. subst y.
  apply IH in H as [s' ->]. exists s'. reflexivity.
Qed.

Lemma map_eq_app_inv {A B} (f : A -> B) (l : list A) : forall l1 l2,
  map f l = l1 ++ l2 ->
  exists m1 m2, l = m1 ++ m2 /\ map f m1 = l1 /\ map f m2 = l2.
Proof.
  induction l as [|a l IH]; intros [|b l1] l2 H; cbn [map app] in H.
  - exists [], []. subst. auto.
  - discriminate.
  - exists [], (a :: l). subst. auto.
  - inversion H; subst. apply IH in H2 as (m1 & m2 & -> & <- & <-).
    exists (a :: m1), m2. auto.
Qed.

Lemma anchor_inner_stops_at_close s caps rest :
  match_at anchor_re s = Some (caps, rest) ->
  exists href inner,
    caps = [href; inner] /\ contains_i (lit "</a>") inner = false.
Proof.
  unfold match_at, anchor_re. cbn [cat exec]. intros H.
  repeat match goal with
         | H : exec (text_i _) _ _ _ = Some _ |- _ =>
             apply exec_text_i_some in H as (? & ? & -> & ? & H)
         | H : exec (plus _) _ _ _ = Some _ |- _ =>
             let D := fresh "D" in
             apply exec_sound in H as (? & ? & ? & -> & D & H);
             apply derives_rep_inv in D as (? & ? & ->)
         | H : exec (star _) _ _ _ = Some _ |- _ =>
             let D := fresh "D" in
             apply exec_sound in H as (? & ? & ? & -> & D & H);
             apply derives_rep_inv in D as (? & ? & ->)
         end.
  unfold star_lazy in H. cbn [exec] in H.
  apply rep_lazy_first in H as (w & s' & -> & Hk & Hfirst).
  apply exec_text_i_some in Hk as (cl & s'' & -> & Hcl & Hk).
  inversion Hk; subst. clear Hk.
  repeat rewrite firstn_matched.
  eexists. exists w. split; [reflexivity|].
  destruct (contains_i (lit "</a>") w) eqn:Hc; [|reflexivity]. exfalso.
  unfold contains_i in Hc.
  apply contains_split in Hc as (m1 & m2 & Hm & Hst).
  apply startswith_split in Hst as [m3 ->].
  apply map_eq_app_inv in Hm as (w1 & w2 & -> & _ & Hm2).
  apply map_eq_app_inv in Hm2 as (c4 & w3 & -> & Hc4 & _).
  specialize (Hfirst w1 (c4 ++ w3) eq_refl).
  assert (Hne : c4 ++ w3 <> [])
    by (destruct c4; [discriminate Hc4|discriminate]).
  specialize (Hfirst Hne).
  rewrite <- app_assoc in Hfirst.
  rewrite (exec_text_i_app c4 _ _ _ _ Hc4) in Hfirst. discriminate.
Qed.

Lemma other_than_char_in chars s :
  forallb (other_than chars) s = true ->
  forall c, char_in chars c = true -> char_in s c = false.
Proof.
  intros H c Hc. unfold char_in at 1. induction s as [|x s IH]; [reflexivity|].
  cbn [forallb] in H. apply andb_prop in H as [Hx H].
  cbn [existsb]. rewrite (IH H), orb_false_r.
  destruct (N.eqb c x) eqn:E; [|reflexivity].
  apply N.eqb_eq in E. subst x. unfold other_than in Hx.
  rewrite Hc in Hx. discriminate.
Qed.

(** Every record [re.findall] gives for the anchor pattern has an href
    without double quote and an inner content without closing anchor tag, in
    any case: the match of an anchor ends at the first closing tag after the
    opening one. *)
Theorem extracted_anchor_bounds html href inner :
  In (href, inner) (findall2 anchor_re html) ->
  char_in href 34%N = false /\ contains_i (lit "</a>") inner = false.
Proof.
  intros Hin. split.
  - apply anchors_shape in Hin as (_ & Hq & _).
    apply (other_than_char_in dq); [exact Hq|reflexivity].
  - apply findall2_hit in Hin as (t & rest & _ & Hm).
    apply anchor_inner_stops_at_close in Hm as (h & i & Hcaps & Hi).
    inversion Hcaps; subst. exact Hi.
Qed.

Lemma extracted_anchor_bounds_witness :
  char_in (lit "/dl/runtime-aarch64.tar.gz") 34%N = false /\
  contains_i (lit "</a>") (lit "ARM64 Runtime") = false.
Proof.
  apply (extracted_anchor_bounds page_three).
  replace (findall2 anchor_re page_three)
    with [(lit "/docs/index.html", lit "Documentation");
          (lit "/dl/runtime-aarch64.tar.gz", lit "ARM64 Runtime");
          (lit "/old/runtime-aarch64.tar.gz", lit "ARM64 Runtime (old)")]
    by (vm_compute; reflexivity).
  right; left; reflexivity.
Defined.

(** ** Matching a well-formed anchor *)

Lemma ascii_tolower_fixed c v :
  ascii_tolower c = v -> is_lower_ascii v = false -> c = v.
Proof.
  unfold ascii_tolower, is_upper_ascii, is_lower_ascii.
  destruct ((65 <=? c) && (c <=? 90))%N eqn:H; [|tauto].
  apply andb_prop in H as [H1 H2].
  apply N.leb_le in H1. apply N.leb_le in H2.
  intros <- Hv. exfalso.
  apply andb_false_iff in Hv as [Hv|Hv]; apply N.leb_gt in Hv; lia.
Qed.

Lemma suffix_forallb q (u h : str) :
  suffix u h -> forallb q h = true -> forallb q u = true.
Proof.
  intros [pre ->] H. rewrite forallb_app in H.
  apply andb_prop in H. tauto.
Qed.

Lemma suffix_last_chars (u h : str) :
  suffix u h -> last_chars (length u) h = u.
Proof.
  intros [pre ->]. unfold last_chars.
  rewrite length_app, Nat.add_sub, skipn_app, skipn_all, Nat.sub_diag.
  reflexivity.
Qed.

Lemma suffix_skipn n (l : str) : suffix (skipn n l) l.
Proof. exists (firstn n l). symmetry. apply firstn_skipn. Qed.

Lemma suffix_snoc (u h : str) x :
  suffix u (h ++ [x]) -> u = [] \/ exists u', u = u' ++ [x] /\ suffix u' h.
Proof.
  intros [pre H]. destruct u as [|u0 ut]; [left; reflexivity|right].
  destruct (@exists_last _ (u0 :: ut)) as (u' & y & Hu); [discriminate|].
  rewrite Hu in *. rewrite app_assoc in H.
  apply app_inj_tail in H as [-> ->].
  exists u'. split; [reflexivity|]. exists pre. reflexivity.
Qed.

(** Inside or right after a quoted href that does not end in [href=], the
    text [href=Q] (Q the double quote) does not start again. *)
Lemma href_not_in_suffix (h u tail c6 s'' : str) :
  forallb (other_than (dq ++ lit ">")) h = true ->
  str_eqb (map ascii_tolower (last_chars 5 h)) (lit "href=") = false ->
  suffix u h ->
  u ++ 34%N :: 62%N :: tail = c6 ++ s'' ->
  map ascii_tolower c6 = lit "href=" ++ dq ->
  False.
Proof.
  intros Hh Hlast Hsuf Heq Hc6.
  change (lit "href=" ++ dq) with [104; 114; 101; 102; 61; 34]%N in Hc6.
  destruct c6 as [|y0 [|y1 [|y2 [|y3 [|y4 [|y5 [|? ?]]]]]]]; try discriminate.
  cbn [map] in Hc6. injection Hc6 as H0 H1 H2 H3 H4 H5.
  destruct u as [|u0 [|u1 [|u2 [|u3 [|u4 [|u5 u']]]]]]; cbn [app] in Heq.
  - injection Heq as E0 _. subst y0. vm_compute in H0. discriminate.
  - injection Heq as _ E1 _. subst y1. vm_compute in H1. discriminate.
  - injection Heq as _ _ E2 _. subst y2. vm_compute in H2. discriminate.
  - injection Heq as _ _ _ E3 _. subst y3. vm_compute in H3. discriminate.
  - injection Heq as _ _ _ _ E4 _. subst y4. vm_compute in H4. discriminate.
  - injection Heq as E0 E1 E2 E3 E4 _. subst.
    pose proof (suffix_last_chars _ _ Hsuf) as Hl. cbn [length] in Hl.
    rewrite Hl in Hlast. cbn [map] in Hlast.
    rewrite H0, H1, H2, H3, H4 in Hlast. vm_compute in Hlast. discriminate.
  - injection Heq as _ _ _ _ _ E5 _. subst y5.
    apply ascii_tolower_fixed in H5; [|reflexivity]. subst u5.
    pose proof (suffix_forallb _ _ _ Hsuf Hh) as Hu.
    cbn [forallb] in Hu.
    do 5 (apply andb_prop in Hu as [_ Hu]).
    apply andb_prop in Hu as [Hu _]. vm_compute in Hu. discriminate.
Qed.

Lemma forallb_any (s : str) : forallb any s = true.
Proof. induction s; [reflexivity|assumption]. Qed.

Lemma rep_greedy_zero {A} p s (k : str -> option A) :
  match s with [] => true | c :: _ => negb (p c) end = true ->
  rep true p 0 None s k = k s.
Proof.
  intros Hs. apply (rep_greedy_give_back p [] s k); auto.
  cbn [length]. intros j Hj. lia.
Qed.

Lemma other_than_left a b (s : str) :
  forallb (other_than (a ++ b)) s = true -> forallb (other_than a) s = true.
Proof.
  induction s as [|c s IH]; [reflexivity|].
  cbn [forallb]. intros H. apply andb_prop in H as [Hc H].
  rewrite (IH H), andb_true_r.
  unfold other_than, char_in in *. rewrite existsb_app, negb_orb in Hc.
  apply andb_prop in Hc. tauto.
Qed.

Lemma other_than_right a b (s : str) :
  forallb (other_than (a ++ b)) s = true -> forallb (other_than b) s = true.
Proof.
  induction s as [|c s IH]; [reflexivity|].
  cbn [forallb]. intros H. apply andb_prop in H as [Hc H].
  rewrite (IH H), andb_true_r.
  unfold other_than, char_in in *. rewrite existsb_app, negb_orb in Hc.
  apply andb_prop in Hc. tauto.
Qed.

(** With the opening tag, the white space and [href=Q] read, the rest of the
    pattern matches the rest of a well-formed anchor. *)
Lemma exec_after_attr h i close rest caps :
  h <> [] ->
  forallb (other_than (dq ++ lit ">")) h = true ->
  contains_i (lit "</a>") i = false ->
  map ascii_tolower close = lit "</a>" ->
  exec (cat [Grp (plus (other_than dq)); text_i dq;
             star (other_than (lit ">")); text_i (lit ">");
             Grp (star_lazy any); text_i (lit "</a>")])
       (h ++ dq ++ lit ">" ++ i ++ close ++ rest) caps
       (fun s' caps' => Some (caps', s'))
  = Some (caps ++ [h] ++ [i], rest).
Proof.
  intros Hne Hh Hi Hclose. cbn [cat exec].
  unfold plus at 1. cbn [exec].
  apply rep_greedy_longest.
  - apply (other_than_left _ (lit ">")). exact Hh.
  - destruct h; [contradiction|cbn [length]; lia].
  - reflexivity.
  - rewrite firstn_matched.
    rewrite (exec_text_i_app dq) by reflexivity.
    unfold star. cbn [exec].
    rewrite rep_greedy_zero by reflexivity.
    rewrite (exec_text_i_app (lit ">")) by reflexivity.
    unfold star_lazy. cbn [exec].
    apply rep_lazy_skip.
    + apply forallb_any.
    + intros w1 w2 Hw Hw2.
      destruct (exec (text_i (lit "</a>")) (w2 ++ close ++ rest) _ _)
        as [x|] eqn:E; [exfalso|reflexivity].
      apply exec_text_i_some in E as (c4 & s'' & Heq & Hc4 & _).
      change (lit "</a>") with [60; 47; 97; 62]%N in *.
      destruct c4 as [|y0 [|y1 [|y2 [|y3 [|? ?]]]]]; try discriminate.
      destruct close as [|k0 [|k1 [|k2 [|k3 [|? ?]]]]]; try discriminate.
      cbn [map] in Hc4, Hclose.
      injection Hc4 as Y0 Y1 Y2 Y3. injection Hclose as K0 K1 K2 K3.
      destruct w2 as [|a [|b [|c [|d w2']]]]; cbn [app] in Heq.
      * contradiction.
      * injection Heq as _ E1 _. subst. congruence.
      * injection Heq as _ _ E2 _. subst. congruence.
      * injection Heq as _ _ _ E3 _. subst. congruence.
      * injection Heq as E0 E1 E2 E3 _. subst.
        unfold contains_i in Hi. repeat rewrite map_app in Hi.
        cbn [map] in Hi. rewrite Y0, Y1, Y2, Y3 in Hi.
        change (60 :: 47 :: 97 :: 62 :: map ascii_tolower w2')%N
          with ([60; 47; 97; 62]%N ++ map ascii_tolower w2') in Hi.
        rewrite contains_middle in Hi. discriminate.
    + rewrite (exec_text_i_app close) by exact Hclose.
      rewrite firstn_matched. rewrite <- app_assoc. reflexivity.
Qed.

Lemma exec_cat_cons {A} r rs s caps (k : str -> list str -> option A) :
  exec (cat (r :: rs)) s caps k =
  exec r s caps (fun s' caps' => exec (cat rs) s' caps' k).
Proof. reflexivity. Qed.

Lemma not_gt_of_tolower c v :
  ascii_tolower c = v -> N.eqb v 62 = false ->
  other_than (lit ">") c = true.
Proof.
  intros Hc Hv. unfold other_than, char_in. cbn [existsb lit map
    list_ascii_of_string]. rewrite orb_false_r.
  destruct (N.eqb c _) eqn:E; [|reflexivity].
  apply N.eqb_eq in E. subst c. vm_compute in Hc. subst v. discriminate.
Qed.

(** A well-formed anchor at the start of the text is matched as a whole,
    with its href and its inner content as the two groups. *)
Lemma match_at_element open space attr h i close rest :
  map ascii_tolower open = lit "<a" ->
  space <> [] -> forallb is_space space = true ->
  map ascii_tolower attr = lit "href=" ->
  h <> [] ->
  forallb (other_than (dq ++ lit ">")) h = true ->
  str_eqb (map ascii_tolower (last_chars 5 h)) (lit "href=") = false ->
  contains_i (lit "</a>") i = false ->
  map ascii_tolower close = lit "</a>" ->
  match_at anchor_re
    (open ++ space ++ attr ++ dq ++ h ++ dq ++ lit ">" ++ i ++ close ++ rest)
  = Some ([h; i], rest).
Proof.
  intros Hopen Hsp1 Hsp2 Hattr Hne Hh Hlast Hi Hclose.
  unfold match_at, anchor_re.
  rewrite exec_cat_cons, (exec_text_i_app open) by exact Hopen.
  rewrite exec_cat_cons. unfold plus at 1. cbn [exec].
  change (lit "href=") with [104; 114; 101; 102; 61]%N in Hattr.
  destruct attr as [|a0 [|a1 [|a2 [|a3 [|a4 [|? ?]]]]]]; try discriminate.
  cbn [map] in Hattr. injection Hattr as A0 A1 A2 A3 A4.
  apply rep_greedy_longest.
  - exact Hsp2.
  - destruct space; [contradiction|cbn [length]; lia].
  - cbn [app]. rewrite <- is_space_tolower, A0. reflexivity.
  - rewrite exec_cat_cons. unfold star at 1. cbn [exec].
    set (s := lit ">" ++ i ++ close ++ rest).
    replace ([a0; a1; a2; a3; a4] ++ dq ++ h ++ dq ++ s)
      with (([a0; a1; a2; a3; a4] ++ dq ++ h ++ dq) ++ s)
      by (repeat rewrite <- app_assoc; reflexivity).
    rewrite rep_greedy_give_back.
    + rewrite exec_cat_cons.
      replace (([a0; a1; a2; a3; a4] ++ dq ++ h ++ dq) ++ s)
        with (([a0; a1; a2; a3; a4] ++ dq) ++ h ++ dq ++ s)
        by (repeat rewrite <- app_assoc; reflexivity).
      rewrite (exec_text_i_app ([a0; a1; a2; a3; a4] ++ dq));
        [|cbn [map app]; rewrite A0, A1, A2, A3, A4; reflexivity].
      subst s. apply (exec_after_attr h i close rest []); assumption.
    + repeat rewrite forallb_app. cbn [forallb].
      rewrite (not_gt_of_tolower a0 _ A0), (not_gt_of_tolower a1 _ A1),
        (not_gt_of_tolower a2 _ A2), (not_gt_of_tolower a3 _ A3),
        (not_gt_of_tolower a4 _ A4) by reflexivity.
      rewrite (other_than_right dq (lit ">") h Hh). reflexivity.
    + reflexivity.
    + intros j Hj. rewrite exec_cat_cons.
      destruct (exec (text_i (lit "href=" ++ dq)) _ _ _) as [x|] eqn:E;
        [exfalso|reflexivity].
      apply exec_text_i_some in E as (c6 & s'' & Heq & Hc6 & _).
      assert (Hfirst : forall c t, c :: t = c6 ++ s'' ->
                                   ascii_tolower c = 104%N).
      { intros c t Ht.
        change (lit "href=" ++ dq) with [104; 114; 101; 102; 61; 34]%N in Hc6.
        destruct c6 as [|y0 c6']; [discriminate|].
        cbn [map app] in *. injection Hc6 as Y0 _. injection Ht as T0 _.
        subst y0. exact Y0. }
      unfold dq in Heq at 1. cbn [app] in Heq.
      destruct j as [|[|[|[|[|[|j]]]]]]; [lia| | | | | |];
        cbn [skipn] in Heq;
        try (cbn [app] in Heq; apply Hfirst in Heq; congruence).
      * cbn [app] in Heq. apply Hfirst in Heq. vm_compute in Heq.
        discriminate.
      * destruct (suffix_snoc _ h 34%N (suffix_skipn j (h ++ dq)))
          as [Hu|(u' & Hu & Hsuf)]; rewrite Hu in Heq.
        -- cbn [app] in Heq. subst s. apply Hfirst in Heq.
           vm_compute in Heq. discriminate.
        -- rewrite <- app_assoc in Heq. subst s.
           exact (href_not_in_suffix h u' _ c6 s'' Hh Hlast Hsuf Heq Hc6).
Qed.

(** ** The outcomes of the resolver *)







(** ** Hrefs the pattern takes and leaves *)







(** C10: the page [<a data-href=Qruntime-x86_64.tgzQ>x</a>] (Q the double
    quote) has no href attribute, yet the value of its [data-href] attribute
    is extracted as the anchor's href and the URL returned is resolved from
    it. *)
Theorem data_href_is_taken_for_href :
  exists html,
    html = page_data_href /\
    contains (lit " href=") html = false /\
    findall2 anchor_re html = [(lit "runtime-x86_64.tgz", lit "x")] /\
    forall L,
      resolve_musl_runtime_url L html (lit "https://example.org/dl/")
        (lit "x86_64")
      = Return (lit "https://example.org/dl/runtime-x86_64.tgz").
Proof.
  exists page_data_href.
  split; [reflexivity|].
  split; [vm_compute; reflexivity|].
  split; [vm_compute; reflexivity|].
  intros L. vm_compute. reflexivity.
Qed.

(** ** Scanning a page of well-formed anchors *)

Lemma contains_tail sub c s :
  contains sub (c :: s) = false -> contains sub s = false.
Proof. cbn [contains]. intros H. apply orb_false_elim in H. tauto. Qed.

(** No anchor starts in a text that opens no tag named [a...], when the
    character after it is not an [a] either. *)
Lemma match_at_gap t rest :
  t <> [] ->
  contains_i (lit "<a") t = false ->
  match rest with
  | [] => true
  | c :: _ => negb (N.eqb (ascii_tolower c) 97)
  end = true ->
  match_at anchor_re (t ++ rest) = None.
Proof.
  intros Hne Ht Hrest.
  destruct (match_at anchor_re (t ++ rest)) as [[caps r]|] eqn:E;
    [exfalso|reflexivity].
  unfold match_at, anchor_re in E. rewrite exec_cat_cons in E.
  apply exec_text_i_some in E as (c2 & s' & Heq & Hc2 & _).
  change (lit "<a") with [60; 97]%N in *.
  destruct c2 as [|y0 [|y1 [|? ?]]]; try discriminate.
  cbn [map] in Hc2. injection Hc2 as Y0 Y1.
  destruct t as [|a [|b t']]; [contradiction| |].
  - destruct rest as [|c rest']; [discriminate|].
    cbn [app] in Heq. injection Heq as _ E1 _. subst y1.
    rewrite Y1 in Hrest. discriminate.
  - cbn [app] in Heq. injection Heq as E0 E1 _. subst.
    unfold contains_i in Ht. cbn [map contains startswith] in Ht.
    rewrite Y0, Y1 in Ht. discriminate.
Qed.

Lemma scan_gap g : forall rest,
  contains_i (lit "<a") g = false ->
  match rest with
  | [] => true
  | c :: _ => negb (N.eqb (ascii_tolower c) 97)
  end = true ->
  scan anchor_re (g ++ rest) 0 = map Gap g ++ scan anchor_re rest 0.
Proof.
  induction g as [|c g IH]; intros rest Hg Hrest; [reflexivity|].
  cbn [app scan map].
  change (c :: g ++ rest) with ((c :: g) ++ rest).
  rewrite match_at_gap; [|discriminate|exact Hg|exact Hrest].
  f_equal. apply IH; [|exact Hrest].
  unfold contains_i in *. cbn [map] in Hg.
  apply contains_tail in Hg. exact Hg.
Qed.

(** A match at the current position becomes a [Hit], and the scan goes on
    right after it. *)
Lemma scan_match r w rest caps :
  w <> [] ->
  match_at r (w ++ rest) = Some (caps, rest) ->
  scan r (w ++ rest) 0 = Hit w caps :: scan r rest 0.
Proof.
  intros Hne Hm. destruct w as [|c w]; [contradiction|].
  cbn [app scan]. change (c :: w ++ rest) with ((c :: w) ++ rest).
  rewrite Hm. rewrite firstn_matched. f_equal.
  rewrite scan_skip. f_equal.
  rewrite length_app, Nat.add_sub. cbn [length].
  rewrite Nat.sub_succ, Nat.sub_0_r, skipn_app, skipn_all, Nat.sub_diag.
  reflexivity.
Qed.

Lemma findall2_gaps g ps :
  flat_map (fun p => match p with
                     | Hit _ [g1; g2] => [(g1, g2)]
                     | _ => []
                     end) (map Gap g ++ ps)
  = flat_map (fun p => match p with
                       | Hit _ [g1; g2] => [(g1, g2)]
                       | _ => []
                       end) ps.
Proof. induction g as [|c g IH]; [reflexivity|exact IH]. Qed.

(** The same conditions, one by one. *)
Lemma well_formed_facts e :
  well_formed e = true ->
  contains_i (lit "<a") (e_gap e) = false /\
  map ascii_tolower (e_open e) = lit "<a" /\
  e_space e <> [] /\ forallb is_space (e_space e) = true /\
  map ascii_tolower (e_attr e) = lit "href=" /\
  e_href e <> [] /\
  forallb (other_than (dq ++ lit ">")) (e_href e) = true /\
  str_eqb (map ascii_tolower (last_chars 5 (e_href e))) (lit "href=") = false /\
  contains_i (lit "</a>") (e_inner e) = false /\
  map ascii_tolower (e_close e) = lit "</a>".
Proof.
  unfold well_formed. intros H.
  repeat match type of H with
         | _ && _ = true => let H' := fresh in apply andb_prop in H as [H H']
         end.
  repeat match goal with
         | H : negb _ = true |- _ => apply negb_true_iff in H
         | H : str_eqb _ _ = true |- _ => apply str_eqb_eq in H
         end.
  repeat split; auto.
  - intros E. rewrite E in *. discriminate.
  - intros E. rewrite E in *. discriminate.
Qed.

Lemma render_element_head e tl :
  well_formed e = true ->
  match (e_open e ++ tl) with
  | [] => true
  | c :: _ => negb (N.eqb (ascii_tolower c) 97)
  end = true.
Proof.
  intros H. apply well_formed_facts in H as (_ & Hopen & _).
  change (lit "<a") with [60; 97]%N in Hopen.
  destruct (e_open e) as [|c o]; [discriminate|].
  cbn [map] in Hopen. injection Hopen as Hc _. cbn [app].
  rewrite Hc. reflexivity.
Qed.

(** On a page made of well-formed anchors, with text between them that opens
    no tag named [a...], [re.findall] gives the href and inner content of
    each anchor, in the order of the page; so the resolver works on exactly
    these records. *)
Theorem findall_rendered_page es tail :
  Forall (fun e => well_formed e = true) es ->
  contains_i (lit "<a") tail = false ->
  findall2 anchor_re (render es tail) = map record_of es /\
  forall L home_url needle_arch,
    resolve_musl_runtime_url L (render es tail) home_url needle_arch =
    search_anchors L home_url (lower L needle_arch) (map record_of es).
Proof.
  intros Hes Htail.
  assert (Hfind : findall2 anchor_re (render es tail) = map record_of es).
  { unfold findall2. induction Hes as [|e es He _ IH]; cbn [render map].
    - rewrite <- (app_nil_r tail). rewrite scan_gap by auto.
      rewrite findall2_gaps. reflexivity.
    - unfold render_element. repeat rewrite <- app_assoc.
      pose proof (render_element_head e
                    (e_space e ++ e_attr e ++ dq ++ e_href e ++ dq ++ lit ">"
                     ++ e_inner e ++ e_close e ++ render es tail) He) as Hhead.
      apply well_formed_facts in He
        as (Hgap & Hopen & Hsp1 & Hsp2 & Hattr & Hne & Hh & Hlast & Hi & Hcl).
      rewrite scan_gap by assumption.
      rewrite findall2_gaps.
      pose proof (match_at_element (e_open e) (e_space e) (e_attr e)
                    (e_href e) (e_inner e) (e_close e) (render es tail)
                    Hopen Hsp1 Hsp2 Hattr Hne Hh Hlast Hi Hcl) as Hm.
      replace (e_open e ++ e_space e ++ e_attr e ++ dq ++ e_href e ++ dq
               ++ lit ">" ++ e_inner e ++ e_close e ++ render es tail)
        with ((e_open e ++ e_space e ++ e_attr e ++ dq ++ e_href e ++ dq
               ++ lit ">" ++ e_inner e ++ e_close e) ++ render es tail) in *
        by (repeat rewrite <- app_assoc; reflexivity).
      assert (Hw : e_open e ++ e_space e ++ e_attr e ++ dq ++ e_href e ++ dq
                   ++ lit ">" ++ e_inner e ++ e_close e <> []).
      { intros E. apply app_eq_nil in E as [E _]. rewrite E in Hopen.
        discriminate. }
      rewrite (scan_match _ _ _ _ Hw Hm).
      cbn [flat_map app]. unfold record_of at 1. f_equal. exact IH. }
  split; [exact Hfind|].
  intros L home_url needle_arch. unfold resolve_musl_runtime_url.
  rewrite Hfind. reflexivity.
Qed.

Lemma findall_rendered_page_witness :
  findall2 anchor_re (render listing (lit "<hr>"))
  = [(lit "/docs/index.html?lang=en", lit "<b>Documentation</b>");
     (lit "/dl/runtime-aarch64.tar.gz", lit "ARM64 Runtime")].
Proof.
  refine (proj1 (findall_rendered_page listing (lit "<hr>") _ _)).
  - repeat constructor.
  - vm_compute; reflexivity.
Defined.

(** ** The shape of a normalized text *)

Lemma collapsed_tight n :
  collapsed n ->
  tight true n = true /\ strip n = n /\ sub ws_re (lit " ") n = n.
Proof.
  unfold collapsed. rewrite sub_ws_squeeze.
  unfold strip, strip_chars, lstrip. intros H.
  assert (Ht : tight true n = true).
  { rewrite <- H. apply tight_rstrip.
    apply (tight_dropwhile _ false), squeeze_tight. }
  split; [exact Ht|]. split.
  - rewrite (tight_no_leading _ Ht). rewrite <- H at 1.
    rewrite rstrip_idempotent. exact H.
  - apply tight_squeeze, tight_weaken, Ht.
Qed.

Lemma tight_spaces s : forall b,
  tight b s = true -> forall c, In c s -> is_space c = true -> c = 32%N.
Proof.
  induction s as [|x s IH]; intros b H c Hin Hc; [contradiction|].
  cbn [tight] in H. destruct (is_space x) eqn:Hx.
  - apply andb_prop in H as [H Ht]. apply andb_prop in H as [H _].
    apply N.eqb_eq in H. destruct Hin as [<-|Hin]; [exact H|].
    apply (IH true); assumption.
  - destruct Hin as [<-|Hin]; [congruence|]. apply (IH false); assumption.
Qed.

(** When lower-casing non-ASCII text keeps white-space-normalized text
    normalized (as the Unicode tables do), a normalized text has no leading
    or trailing white space, no run of white space to collapse, and no white
    space character other than the space. *)
Theorem normalize_text_is_collapsed L s n :
  (forall t, isascii t = false -> collapsed t ->
             collapsed (unicode_lower L t)) ->
  normalize_text L s = Return n ->
  strip n = n /\ sub ws_re (lit " ") n = n /\
  forall c, In c n -> is_space c = true -> c = 32%N.
Proof.
  intros Hws Hs. unfold normalize_text in Hs.
  destruct (Html.unescape L (sub tag_re (lit " ") s)) as [u|e];
    cbn [bind] in Hs; [|discriminate].
  pose proof (collapsed_after_collapse u) as Hc.
  set (t := strip (sub ws_re (lit " ") u)) in *.
  assert (Hn : n = lower L t) by congruence.
  assert (Hcn : collapsed n).
  { subst n. unfold lower. destruct (isascii t) eqn:Ha.
    - apply collapsed_map_tolower; exact Hc.
    - apply Hws; assumption. }
  apply collapsed_tight in Hcn as (Ht & Hstrip & Hsub).
  repeat split; auto. apply (tight_spaces n true Ht).
Qed.

Lemma normalize_text_is_collapsed_witness :
  strip (lit "arm64 runtime + tools") = lit "arm64 runtime + tools" /\
  sub ws_re (lit " ") (lit "arm64 runtime + tools")
  = lit "arm64 runtime + tools".
Proof.
  destruct (normalize_text_is_collapsed ascii_lib
              (lit "<b>ARM64</b>   Runtime &#43; tools ")
              (lit "arm64 runtime + tools")) as (H1 & H2 & _).
  - intros t _ Hc. exact Hc.
  - vm_compute; reflexivity.
  - split; assumption.
Defined.

Lemma map_tolower_no_upper s :
  existsb is_upper_ascii (map ascii_tolower s) = false.
Proof.
  induction s as [|c s IH]; [reflexivity|].
  cbn [map existsb]. rewrite IH, orb_false_r.
  unfold ascii_tolower. destruct (is_upper_ascii c) eqn:Hc; [|exact Hc].
  unfold is_upper_ascii in *. apply andb_prop in Hc as [H1 H2].
  apply N.leb_le in H1. apply N.leb_le in H2.
  apply andb_false_iff. right. apply N.leb_gt. lia.
Qed.

(** When lower-casing non-ASCII text leaves no ASCII capital (as the Unicode
    tables do), neither a normalized text nor a haystack contains an ASCII
    capital letter: the keywords are compared with lower-case text only. *)
Theorem normalize_text_is_lower_case L s n href_unescaped :
  (forall t, isascii t = false ->
             existsb is_upper_ascii (unicode_lower L t) = false) ->
  normalize_text L s = Return n ->
  existsb is_upper_ascii n = false /\
  existsb is_upper_ascii (haystack L href_unescaped n) = false.
Proof.
  intros Hlow Hs.
  assert (Hl : forall t, existsb is_upper_ascii (lower L t) = false).
  { intros t. unfold lower. destruct (isascii t) eqn:Ha.
    - apply map_tolower_no_upper.
    - apply Hlow; exact Ha. }
  split; [|apply Hl].
  unfold normalize_text in Hs.
  destruct (Html.unescape L (sub tag_re (lit " ") s)) as [u|e];
    cbn [bind] in Hs; [|discriminate].
  inversion Hs; subst. apply Hl.
Qed.

Lemma normalize_text_is_lower_case_witness :
  existsb is_upper_ascii (lit "arm64 runtime + tools") = false /\
  existsb is_upper_ascii
    (haystack ascii_case_lib (lit "/DL/Runtime.TGZ")
       (lit "arm64 runtime + tools"))
  = false.
Proof.
  apply (normalize_text_is_lower_case ascii_case_lib
           (lit "<b>ARM64</b>   Runtime &#43; tools ")).
  - intros t _. apply map_tolower_no_upper.
  - vm_compute; reflexivity.
Defined.

(** ** Blank text *)

Lemma squeeze_blank s :
  forallb is_space s = true -> squeeze true s = [].
Proof.
  induction s as [|c s IH]; [reflexivity|].
  cbn [forallb squeeze]. intros H. apply andb_prop in H as [Hc H].
  rewrite Hc. auto.
Qed.

Lemma blank_without c s :
  is_space c = false -> forallb is_space s = true -> char_in s c = false.
Proof.
  intros Hc. unfold char_in. induction s as [|x s IH]; [reflexivity|].
  cbn [forallb existsb]. intros H. apply andb_prop in H as [Hx H].
  rewrite (IH H), orb_false_r.
  destruct (N.eqb c x) eqn:E; [|reflexivity].
  apply N.eqb_eq in E. congruence.
Qed.

(** A text of white space only, the empty text among them, is normalized to
    the empty text. *)
Theorem normalize_text_blank L s :
  forallb is_space s = true -> normalize_text L s = Return [].
Proof.
  intros Hs. unfold normalize_text.
  rewrite sub_tag_without_lt by (apply blank_without; [reflexivity|exact Hs]).
  rewrite unescape_without_amp
    by (apply blank_without; [reflexivity|exact Hs]).
  cbn [bind]. rewrite sub_ws_squeeze.
  destruct s as [|c s]; [reflexivity|].
  cbn [forallb] in Hs. apply andb_prop in Hs as [Hc Hs].
  cbn [squeeze]. rewrite Hc, (squeeze_blank s Hs). reflexivity.
Qed.

Lemma normalize_text_blank_witness :
  normalize_text ascii_lib [32; 9; 10; 160; 8195]%N = Return [].
Proof. apply normalize_text_blank. vm_compute; reflexivity. Defined.

(** ** What the base URL and the keywords change *)

(** Whether the resolver signals not-found does not depend on the base URL:
    the base URL is used only once an anchor has qualified. *)
Theorem not_found_whatever_base L html base1 base2 needle_arch :
  resolve_musl_runtime_url L html base1 needle_arch = Raise (SystemExit 1) ->
  resolve_musl_runtime_url L html base2 needle_arch = Raise (SystemExit 1).
Proof.
  unfold resolve_musl_runtime_url.
  repeat rewrite search_anchors_not_found_iff. tauto.
Qed.

Lemma not_found_whatever_base_witness :
  resolve_musl_runtime_url ascii_lib page_aarch64 (lit "ftp://[") (lit "riscv64")
  = Raise (SystemExit 1).
Proof.
  apply (not_found_whatever_base ascii_lib page_aarch64 example_base).
  vm_compute; reflexivity.
Defined.

(** When the href of the first qualifying anchor decodes to the empty text,
    the URL returned is the base URL itself. *)
Theorem empty_decoded_href_gives_base
    L html home_url needle_arch pre href inner post :
  findall2 anchor_re html = pre ++ (href, inner) :: post ->
  Forall (fun a => qualifies L (lower L needle_arch) a = Return false) pre ->
  qualifies L (lower L needle_arch) (href, inner) = Return true ->
  Html.unescape L href = Return [] ->
  resolve_musl_runtime_url L html home_url needle_arch = Return home_url.
Proof.
  intros Hanch Hpre Hq Hu. unfold resolve_musl_runtime_url.
  rewrite Hanch, (search_anchors_skip L home_url _ pre _ Hpre).
  rewrite search_anchors_cons, Hq, Hu. cbn [bind].
  unfold urljoin. destruct home_url; reflexivity.
Qed.

Lemma empty_decoded_href_gives_base_witness :
  resolve_musl_runtime_url ascii_lib page_blank_href example_base (lit "x86_64")
  = Return example_base.
Proof.
  apply (empty_decoded_href_gives_base ascii_lib page_blank_href example_base
           (lit "x86_64") [] (lit "&#1;") (lit "musl runtime x86_64") []).
  - vm_compute; reflexivity.
  - constructor.
  - vm_compute; reflexivity.
  - vm_compute; reflexivity.
Defined.

Lemma contains_app_l sub a : forall b,
  contains sub a = true -> contains sub (a ++ b) = true.
Proof.
  intros b H. apply contains_split in H as (s1 & s2 & -> & H).
  apply startswith_split in H as [s3 ->].
  repeat rewrite <- app_assoc. apply contains_middle.
Qed.

Lemma isascii_app a b : isascii (a ++ b) = isascii a && isascii b.
Proof. apply forallb_app. Qed.

(** For ASCII text, an anchor passes the test as soon as each of the two
    keywords occurs in the lower-cased decoded href or in the normalized
    inner content: the two keywords need not be in the same part. *)
Theorem keywords_in_either_part L needle href_unescaped text :
  isascii href_unescaped = true -> isascii text = true ->
  contains (lit "runtime") (lower L href_unescaped) = true \/
  contains (lit "runtime") (lower L text) = true ->
  contains needle (lower L href_unescaped) = true \/
  contains needle (lower L text) = true ->
  matches needle (haystack L href_unescaped text) = true.
Proof.
  intros Hh Ht Hrun Hneedle.
  assert (Hhay : haystack L href_unescaped text =
                 lower L href_unescaped ++ lit " " ++ lower L text).
  { unfold haystack, lower. repeat rewrite isascii_app.
    rewrite Hh, Ht. cbn [andb isascii forallb lit]. repeat rewrite map_app.
    reflexivity. }
  assert (Hin : forall k,
            contains k (lower L href_unescaped) = true \/
            contains k (lower L text) = true ->
            contains k (haystack L href_unescaped text) = true).
  { intros k [H|H]; rewrite Hhay.
    - apply contains_app_l; exact H.
    - apply contains_app_r, contains_app_r; exact H. }
  unfold matches. rewrite (Hin _ Hrun), (Hin _ Hneedle). reflexivity.
Qed.

Lemma keywords_in_either_part_witness :
  matches (lit "aarch64")
    (haystack ascii_lib (lit "/dl/Runtime.tgz") (lit "for aarch64")) = true.
Proof.
  apply keywords_in_either_part.
  - vm_compute; reflexivity.
  - vm_compute; reflexivity.
  - left; vm_compute; reflexivity.
  - right; vm_compute; reflexivity.
Defined.

(** ** Hrefs that are not in double quotes *)

Lemma anchor_match_has_attr s caps rest :
  match_at anchor_re s = Some (caps, rest) ->
  contains_i (lit "href=" ++ dq) s = true.
Proof.
  unfold match_at, anchor_re. cbn [cat exec]. intros H.
  apply exec_text_i_some in H as (w1 & s1 & -> & _ & H).
  apply exec_sound in H as (w2 & s2 & c2 & -> & _ & H).
  apply exec_sound in H as (w3 & s3 & c3 & -> & _ & H).
  apply exec_text_i_some in H as (w4 & s4 & -> & Hattr & _).
  unfold contains_i. repeat rewrite map_app. rewrite Hattr.
  do 3 apply contains_app_r.
  apply contains_startswith, startswith_app.
Qed.

Lemma contains_i_suffix sub t s :
  suffix t s -> contains_i sub t = true -> contains_i sub s = true.
Proof.
  intros [pre ->] H. unfold contains_i in *. rewrite map_app.
  apply contains_app_r. exact H.
Qed.

(** A page on which [href=] is nowhere followed by a double quote, as when
    every href is in single quotes or without quotes, yields no anchor
    record, and the resolver signals not-found. *)
Theorem no_quoted_href_no_anchor L html home_url needle_arch :
  contains_i (lit "href=" ++ dq) html = false ->
  findall2 anchor_re html = [] /\
  resolve_musl_runtime_url L html home_url needle_arch = Raise (SystemExit 1).
Proof.
  intros Hno.
  assert (Hnil : findall2 anchor_re html = []).
  { destruct (findall2 anchor_re html) as [|[h i] rest] eqn:E; [reflexivity|].
    assert (Hin : In (h, i) (findall2 anchor_re html))
      by (rewrite E; left; reflexivity).
    apply findall2_hit in Hin as (t & r & Hsuf & Hm).
    apply anchor_match_has_attr in Hm.
    rewrite (contains_i_suffix _ _ _ Hsuf Hm) in Hno. discriminate. }
  split; [exact Hnil|].
  unfold resolve_musl_runtime_url. rewrite Hnil. reflexivity.
Qed.

Lemma no_quoted_href_no_anchor_witness :
  resolve_musl_runtime_url ascii_lib page_single_quotes example_base
    (lit "x86_64") = Raise (SystemExit 1).
Proof.
  apply (no_quoted_href_no_anchor ascii_lib page_single_quotes).
  vm_compute; reflexivity.
Defined.

(** ** More on the driver *)

(** With the three flags given and not empty, the variables [HTML],
    [HOME_URL] and [NEEDLE_ARCH] and standard input play no part: for the
    same resolver and the same behaviour of standard output, the run is the
    same whatever the environment and standard input hold. Without the
    [--html] flag and with the variable [HTML] set, standard input plays no
    part. *)
Theorem flags_then_environment resolver a out env1 env2 tty1 tty2 in1 in2 :
  (truthy (args_html a) = true ->
   truthy (args_home_url a) = true ->
   truthy (args_needle_arch a) = true ->
   main_with resolver {| args := a; environ := env1; stdin_isatty := tty1;
                         stdin_read := in1; stdout_print := out |} =
   main_with resolver {| args := a; environ := env2; stdin_isatty := tty2;
                         stdin_read := in2; stdout_print := out |}) /\
  (environ_get env1 "HTML" <> None ->
   main_with resolver {| args := a; environ := env1; stdin_isatty := tty1;
                         stdin_read := in1; stdout_print := out |} =
   main_with resolver {| args := a; environ := env1; stdin_isatty := tty2;
                         stdin_read := in2; stdout_print := out |}).
Proof.
  split.
  - intros Hh Hu Hn. unfold main_with, html_source, home_url_source,
      needle_arch_source, or_else.
    cbn [args environ stdin_isatty stdin_read stdout_print].
    rewrite Hh, Hu, Hn. reflexivity.
  - intros He. unfold main_with, html_source.
    cbn [args environ stdin_isatty stdin_read stdout_print].
    destruct (truthy (args_html a)); [reflexivity|].
    destruct (environ_get env1 "HTML"); [reflexivity|contradiction].
Qed.

Lemma flags_then_environment_witness :
  main_with (resolve_musl_runtime_url ascii_lib)
    {| args := args (process_with page_aarch64 example_base (lit "aarch64"));
       environ := [("HTML", page_three); ("HOME_URL", lit "ftp://x/")]%string;
       stdin_isatty := false; stdin_read := page_upper;
       stdout_print := fun _ => Written |}
  = main_with (resolve_musl_runtime_url ascii_lib)
      (process_with page_aarch64 example_base (lit "aarch64")).
Proof.
  refine (proj1 (flags_then_environment _ _ _ _ _ _ _ _ _) _ _ _);
    reflexivity.
Defined.


(** An empty HTML document, as from an [HTML] variable set to the empty
    text, is a document like any other: with the other two inputs present
    the run ends with status 1 and no output, not with a usage error. *)
Theorem empty_document_is_not_found L p :
  html_source p = Some [] ->
  truthy (home_url_source p) = true ->
  truthy (needle_arch_source p) = true ->
  main L p = {| stdout := []; stderr := []; status := 1 |}.
Proof.
  intros Hh Hu Hn. unfold main, main_with. rewrite Hh, Hu, Hn. reflexivity.
Qed.

Lemma empty_document_is_not_found_witness :
  main ascii_lib
    {| args := {| args_html := Some []; args_home_url := Some example_base;
                  args_needle_arch := Some (lit "x86_64") |};
       environ := [("HTML", [])]%string;
       stdin_isatty := true; stdin_read := [];
       stdout_print := fun _ => Written |}
  = {| stdout := []; stderr := []; status := 1 |}.
Proof. apply empty_document_is_not_found; reflexivity. Defined.
